(** * Rail Fence cipher ([src/ciphers/rail_fence.py]): embedding and properties

    The three static methods of [RailFenceCipher] are embedded as functions
    into an error monad.  Python [str] values are [string]s, a character is a
    [str] of length one, [int]s are [Z], the fence matrix is a list of rows,
    each a list of cells, indexed with Python's rules (negative indices count
    from the end, anything else outside the list raises [IndexError]).
    A second embedding keeps the list objects on a heap that outlasts a call;
    it is proved to agree with the first.
    Characters are [ascii] values; the methods compare a character only with
    the space, the marker, the newline and the empty string, so nothing here
    depends on the size of the alphabet. *)

From Stdlib Require Import ZArith Ascii String Lia.
From stdpp Require Import base list strings.

Local Open Scope Z_scope.

(** ** The fragment of the Python runtime the cipher uses *)

Module Py.

(** Exceptions that can leave a call.  [IndexError] is what the interpreter
    raises for [l[i]] outside a list or a string.  [ValueError] is the class
    this code base raises for a bad key, with a message that names the cipher
    and the expected key ([process_cipher] in [src/cipher_gui.py]). *)
Inductive exn : Type :=
| IndexError
| ValueError (msg : string).

Inductive result (A : Type) : Type :=
| Ok (a : A)
| Raise (e : exn).
Arguments Ok {A} a.
Arguments Raise {A} e.

Definition bind {A B} (m : result A) (k : A -> result B) : result B :=
  match m with
  | Ok a => k a
  | Raise e => Raise e
  end.

(** An error that names a key problem, as opposed to an interpreter error. *)
Definition is_invalid_key_error (e : exn) : bool :=
  match e with
  | ValueError _ => true
  | IndexError => false
  end.

(** Index normalisation of [l[i]] for a sequence of length [len]. *)
Definition norm_index (len : nat) (i : Z) : result nat :=
  if (0 <=? i) && (i <? Z.of_nat len) then Ok (Z.to_nat i)
  else if (i <? 0) && (- Z.of_nat len <=? i) then Ok (Z.to_nat (Z.of_nat len + i))
  else Raise IndexError.

(** [l[i]] *)
Definition getitem {A} (l : list A) (i : Z) : result A :=
  bind (norm_index (length l) i) (fun k =>
    match l !! k with
    | Some x => Ok x
    | None => Raise IndexError
    end).

(** [l[i] = v]; the list object is updated in place, which the embedding
    renders by returning the updated list. *)
Definition setitem {A} (l : list A) (i : Z) (v : A) : result (list A) :=
  bind (norm_index (length l) i) (fun k => Ok (<[k := v]> l)).

(** [fence[i][j] = v] on a list of distinct row objects. *)
Definition setitem2 {A} (m : list (list A)) (i j : Z) (v : A)
  : result (list (list A)) :=
  bind (getitem m i) (fun row =>
  bind (setitem row j v) (fun row' =>
  setitem m i row')).

(** [fence[i][j]] *)
Definition getitem2 {A} (m : list (list A)) (i j : Z) : result A :=
  bind (getitem m i) (fun row => getitem row j).

(** [len(s)] *)
Definition len (s : string) : nat := String.length s.

(** A character as Python has it: a [str] of length one. *)
Definition chr (c : ascii) : string := String c EmptyString.

(** [s[i]] *)
Definition str_getitem (s : string) (i : Z) : result string :=
  bind (norm_index (len s) i) (fun k =>
    match String.get k s with
    | Some c => Ok (chr c)
    | None => Raise IndexError
    end).

(** [s.replace(" ", "")] *)
Fixpoint remove_spaces (s : string) : string :=
  match s with
  | EmptyString => EmptyString
  | String c s' =>
      if Ascii.eqb c " " then remove_spaces s' else String c (remove_spaces s')
  end.

(** [''.join(parts)] *)
Definition join (parts : list string) : string :=
  foldr String.append EmptyString parts.

(** [for x in xs: body], threading the variables the body assigns. *)
Fixpoint for_each {S} (xs : list nat) (body : nat -> S -> result S) (s : S)
  : result S :=
  match xs with
  | [] => Ok s
  | x :: xs' => bind (body x s) (for_each xs' body)
  end.

(** [range(n)] for an [int] [n]: empty when [n <= 0]. *)
Definition range (n : Z) : list nat := seq 0 (Z.to_nat n).

End Py.

Import Py.

Notation "x <- m ;; k" := (Py.bind m (fun x => k))
  (at level 100, m at next level, right associativity).

(** ** The cipher *)

Module RailFenceCipher.

(** The fence matrix: [rails] rows of [len(text)] cells. *)
Abbreviation fence_t := (list (list string)) (only parsing).

(** The cursor of a zigzag walk: the local variables [rail], [direction]. *)
Record cursor : Type := Cursor { rail : Z; direction : Z }.

(** The tail of each zigzag loop body:
<<
    if rail == 0: direction = 1
    elif rail == rails - 1: direction = -1
    rail += direction
>> *)
Definition advance (rails : Z) (c : cursor) : cursor :=
  let d :=
    if rail c =? 0 then 1
    else if rail c =? rails - 1 then -1
    else direction c in
  Cursor (rail c + d) d.

(** [rail = 0; direction = 1] *)
Definition start : cursor := Cursor 0 1.

(** [[[fill] * n for _ in range(rails)]]: a fresh row per rail. *)
Definition new_fence (fill : string) (n : nat) (rails : Z) : fence_t :=
  (fun _ => replicate n fill) <$> range rails.

(** First loop of [encrypt], lines 56-67. *)
Definition populate_body (text : string) (rails : Z) (col : nat)
    (st : fence_t * cursor) : result (fence_t * cursor) :=
  let '(fence, c) := st in
  ch <- str_getitem text (Z.of_nat col) ;;
  fence' <- setitem2 fence (rail c) (Z.of_nat col) ch ;;
  Ok (fence', advance rails c).

Definition populate (text : string) (rails : Z) : result (fence_t * cursor) :=
  for_each (range (Z.of_nat (len text))) (populate_body text rails)
    (new_fence "" (len text) rails, start).

(** Read-off by row, lines 70-74. *)
Definition read_cell (fence : fence_t) (i j : nat) (res : list string)
  : result (list string) :=
  cell <- getitem2 fence (Z.of_nat i) (Z.of_nat j) ;;
  if String.eqb cell "" then Ok res else Ok (res ++ [cell]).

Definition read_rows (fence : fence_t) (n : nat) (rails : Z)
  : result (list string) :=
  for_each (range rails)
    (fun i res => for_each (range (Z.of_nat n)) (read_cell fence i) res) [].

Definition encrypt (text : string) (rails : Z) : result string :=
  let text := remove_spaces text in
  st <- populate text rails ;;
  let fence := fst st in
  res <- read_rows fence (len text) rails ;;
  Ok (join res).

(** The newline character that fills [decrypt]'s fence at first, line 94. *)
Definition newline : string := chr "010".

(** First loop of [decrypt], lines 100-108. *)
Definition mark_body (rails : Z) (col : nat) (st : fence_t * cursor)
  : result (fence_t * cursor) :=
  let '(fence, c) := st in
  fence' <- setitem2 fence (rail c) (Z.of_nat col) "*" ;;
  Ok (fence', advance rails c).

Definition mark (n : nat) (rails : Z) : result (fence_t * cursor) :=
  for_each (range (Z.of_nat n)) (mark_body rails)
    (new_fence newline n rails, start).

(** Fill pass, lines 111-116; the state is [fence] and [index]. *)
Definition fill_cell (ciphertext : string) (i j : nat) (st : fence_t * Z)
  : result (fence_t * Z) :=
  let '(fence, index) := st in
  cell <- getitem2 fence (Z.of_nat i) (Z.of_nat j) ;;
  if String.eqb cell "*" && (index <? Z.of_nat (len ciphertext)) then
    ch <- str_getitem ciphertext index ;;
    fence' <- setitem2 fence (Z.of_nat i) (Z.of_nat j) ch ;;
    Ok (fence', index + 1)
  else Ok (fence, index).

Definition fill (ciphertext : string) (rails : Z) (fence : fence_t)
  : result (fence_t * Z) :=
  for_each (range rails)
    (fun i st =>
       for_each (range (Z.of_nat (len ciphertext))) (fill_cell ciphertext i) st)
    (fence, 0).

(** Read-out along the zigzag, lines 119-131. *)
Definition zigzag_body (fence : fence_t) (rails : Z) (col : nat)
    (st : list string * cursor) : result (list string * cursor) :=
  let '(res, c) := st in
  cell <- getitem2 fence (rail c) (Z.of_nat col) ;;
  Ok (res ++ [cell], advance rails c).

Definition read_zigzag (fence : fence_t) (n : nat) (rails : Z)
  : result (list string * cursor) :=
  for_each (range (Z.of_nat n)) (zigzag_body fence rails) ([], start).

Definition decrypt (ciphertext : string) (rails : Z) : result string :=
  let ciphertext := remove_spaces ciphertext in
  st <- mark (len ciphertext) rails ;;
  st <- fill ciphertext rails (fst st) ;;
  st <- read_zigzag (fst st) (len ciphertext) rails ;;
  Ok (join (fst st)).

Definition transform (text : string) (rails : Z) (encrypt_flag : bool)
  : result string :=
  if encrypt_flag then encrypt text rails else decrypt text rails.

End RailFenceCipher.

Import RailFenceCipher.

(** ** The caller in [src/cipher_gui.py] *)

Module CipherToolGUI.

Section ProcessCipher.
(** [int(key)], the builtin: an [int] or an exception. *)
Variable int : string -> result Z.

(** [process_cipher(cipher_name, text, key, encrypt)], lines 200-222, when
    [cipher_name] is ["railfence"]: the lookup in [cipher_map] finds
    [RailFenceCipher] and the first branch runs,
<<
      try:
          rails = int(key)
          return cipher_class.transform(text, rails, encrypt)
      except ValueError:
          raise ValueError("Rail Fence cipher requires a numeric key ...")
>> *)
Definition process_cipher_railfence (text key : string) (encrypt_flag : bool)
  : result string :=
  match (rails <- int key ;; transform text rails encrypt_flag) with
  | Raise (ValueError _) =>
      Raise (ValueError "Rail Fence cipher requires a numeric key (number of rails)")
  | outcome => outcome
  end.
End ProcessCipher.

End CipherToolGUI.

Import CipherToolGUI.

(** ** The same methods with their list objects on a heap

    The embedding above hands lists from one statement to the next as values.
    Here every list object the methods create (the fence, its rows, [result])
    lives at an address of a heap that outlasts the call, as it does in the
    interpreter, and a call is a function of the heap it finds.  Strings and
    integers are immutable and stay values. *)

Module Heap.

(** A list object: a list of [str], or a list of references to list objects. *)
Inductive obj : Type :=
| StrList (cells : list string)
| RefList (refs : list nat).

(** A statement: from the heap it finds to its outcome and the heap it leaves.
    An exception leaves the heap as it is when it is raised. *)
Definition M (A : Type) : Type := list obj -> result A * list obj.

Definition ret {A} (a : A) : M A := fun h => (Ok a, h).

(** An expression on values only. *)
Definition lift {A} (r : result A) : M A := fun h => (r, h).

Definition bindM {A B} (m : M A) (k : A -> M B) : M B :=
  fun h =>
    match m h with
    | (Ok a, h') => k a h'
    | (Raise e, h') => (Raise e, h')
    end.

(** A new object, at the first free address; nothing is ever freed. *)
Definition alloc (o : obj) : M nat := fun h => (Ok (length h), h ++ [o]).

(** The contents of the list at [p].  A reference comes from [alloc] and is
    used at its own class only; the fallback is for the other addresses. *)
Definition cells_of (p : nat) : M (list string) :=
  fun h => (Ok (match h !! p with Some (StrList l) => l | _ => [] end), h).

Definition refs_of (p : nat) : M (list nat) :=
  fun h => (Ok (match h !! p with Some (RefList l) => l | _ => [] end), h).

Definition update (p : nat) (o : obj) : M unit := fun h => (Ok tt, <[p := o]> h).

End Heap.

Import Heap.

Notation "x <~ m ;; k" := (Heap.bindM m (fun x => k))
  (at level 100, m at next level, right associativity).

Module RailFenceOnHeap.

(** [fence[i]] *)
Definition refs_getitem (p : nat) (i : Z) : M nat :=
  refs <~ refs_of p ;; lift (getitem refs i).

(** [row[j]] *)
Definition cells_getitem (p : nat) (j : Z) : M string :=
  cells <~ cells_of p ;; lift (getitem cells j).

(** [row[j] = v], in place *)
Definition cells_setitem (p : nat) (j : Z) (v : string) : M unit :=
  cells <~ cells_of p ;;
  cells' <~ lift (setitem cells j v) ;;
  update p (StrList cells').

(** [fence[i][j]] *)
Definition getitem2_h (fence : nat) (i j : Z) : M string :=
  row <~ refs_getitem fence i ;; cells_getitem row j.

(** [fence[i][j] = v] *)
Definition setitem2_h (fence : nat) (i j : Z) (v : string) : M unit :=
  row <~ refs_getitem fence i ;; cells_setitem row j v.

(** [result.append(v)], in place *)
Definition cells_append (p : nat) (v : string) : M unit :=
  cells <~ cells_of p ;; update p (StrList (cells ++ [v])).

(** The step of a list comprehension that adds the new element. *)
Definition refs_append (p q : nat) : M unit :=
  refs <~ refs_of p ;; update p (RefList (refs ++ [q])).

(** [for x in xs: body] *)
Fixpoint for_each_h {S} (xs : list nat) (body : nat -> S -> M S) (s : S) : M S :=
  match xs with
  | [] => ret s
  | x :: xs' => s' <~ body x s ;; for_each_h xs' body s'
  end.

(** [[[fill] * n for _ in range(rails)]]: the list under construction, then
    one new row object per rail, each made with its [n] cells. *)
Definition new_fence_h (fill : string) (n : nat) (rails : Z) : M nat :=
  fence <~ alloc (RefList []) ;;
  _ <~ for_each_h (range rails)
         (fun _ _ =>
            row <~ alloc (StrList (replicate n fill)) ;;
            refs_append fence row) tt ;;
  ret fence.

(** [RailFenceCipher.encrypt], lines 34-76. *)
Definition encrypt_h (text : string) (rails : Z) : M string :=
  let text := remove_spaces text in
  fence <~ new_fence_h "" (len text) rails ;;
  _ <~ for_each_h (range (Z.of_nat (len text)))
         (fun col c =>
            ch <~ lift (str_getitem text (Z.of_nat col)) ;;
            _ <~ setitem2_h fence (rail c) (Z.of_nat col) ch ;;
            ret (advance rails c)) start ;;
  result <~ alloc (StrList []) ;;
  _ <~ for_each_h (range rails)
         (fun i _ =>
            for_each_h (range (Z.of_nat (len text)))
              (fun j _ =>
                 cell <~ getitem2_h fence (Z.of_nat i) (Z.of_nat j) ;;
                 if String.eqb cell "" then ret tt
                 else
                   cell <~ getitem2_h fence (Z.of_nat i) (Z.of_nat j) ;;
                   cells_append result cell) tt) tt ;;
  parts <~ cells_of result ;;
  ret (join parts).

(** [RailFenceCipher.decrypt], lines 78-133. *)
Definition decrypt_h (ciphertext : string) (rails : Z) : M string :=
  let ciphertext := remove_spaces ciphertext in
  fence <~ new_fence_h newline (len ciphertext) rails ;;
  _ <~ for_each_h (range (Z.of_nat (len ciphertext)))
         (fun col c =>
            _ <~ setitem2_h fence (rail c) (Z.of_nat col) "*" ;;
            ret (advance rails c)) start ;;
  _ <~ for_each_h (range rails)
         (fun i index =>
            for_each_h (range (Z.of_nat (len ciphertext)))
              (fun j index =>
                 cell <~ getitem2_h fence (Z.of_nat i) (Z.of_nat j) ;;
                 if String.eqb cell "*" && (index <? Z.of_nat (len ciphertext)) then
                   ch <~ lift (str_getitem ciphertext index) ;;
                   _ <~ setitem2_h fence (Z.of_nat i) (Z.of_nat j) ch ;;
                   ret (index + 1)
                 else ret index) index) 0 ;;
  result <~ alloc (StrList []) ;;
  _ <~ for_each_h (range (Z.of_nat (len ciphertext)))
         (fun col c =>
            cell <~ getitem2_h fence (rail c) (Z.of_nat col) ;;
            _ <~ cells_append result cell ;;
            ret (advance rails c)) start ;;
  parts <~ cells_of result ;;
  ret (join parts).

(** [RailFenceCipher.transform], lines 16-32. *)
Definition transform_h (text : string) (rails : Z) (encrypt_flag : bool) : M string :=
  if encrypt_flag then encrypt_h text rails else decrypt_h text rails.

(** Calls made one after the other, each on the heap the one before left. *)
Fixpoint run_calls (calls : list (string * Z * bool)) (h : list obj)
  : list (result string) :=
  match calls with
  | [] => []
  | (text, rails, mode) :: calls' =>
      let (outcome, h') := transform_h text rails mode h in
      outcome :: run_calls calls' h'
  end.

End RailFenceOnHeap.

Import RailFenceOnHeap.

(** ** Vocabulary of the statements *)

(** The characters of a [str]. *)
Definition chars (s : string) : list ascii := list_ascii_of_string s.

(** The triangle wave of the specification: row of column [c]. *)
Definition tri (rails c : Z) : Z :=
  let m := c mod (2 * rails - 2) in
  if m <? rails then m else 2 * (rails - 1) - m.

(** The cursor at the head of iteration [k] of a zigzag loop. *)
Definition walk (rails : Z) (k : nat) : cursor :=
  Nat.iter k (advance rails) start.

(** What the loops maintain about the cursor at the head of iteration [k]:
    it sits on the wave, going down on the way down and up on the way up. *)
Definition on_wave (rails k : Z) (c : cursor) : Prop :=
  let m := k mod (2 * rails - 2) in
  rail c = tri rails k /\
  (0 < m < rails - 1 -> direction c = 1) /\
  (rails - 1 < m -> direction c = -1).

(** The triangle wave as a row number. *)
Definition row_of (rails : Z) (j : nat) : nat :=
  Z.to_nat (tri rails (Z.of_nat j)).

(** A matrix of [r] rows and [n] columns given by its cells. *)
Definition grid (r n : nat) (g : nat -> nat -> string) : fence_t :=
  (fun i => g i <$> seq 0 n) <$> seq 0 r.

(** The columns below [n] that the wave puts on rail [i], left to right. *)
Definition rail_cols (rails : Z) (n i : nat) : list nat :=
  filter (fun j => row_of rails j = i) (seq 0 n).

(** The columns of the first [r] rails, rail after rail. *)
Definition rails_cols (rails : Z) (n r : nat) : list nat :=
  flat_map (rail_cols rails n) (seq 0 r).

(** The order in which a row-by-row sweep meets the columns. *)
Definition order (rails : Z) (n : nat) : list nat :=
  rails_cols rails n (Z.to_nat rails).

(** How many marked cells a row-by-row sweep meets before cell [(i, j)]. *)
Definition rank (rails : Z) (n i j : nat) : nat :=
  (length (rails_cols rails n i) + length (rail_cols rails j i))%nat.

(** The default of [nth] on characters; the lookups below are all in range. *)
Definition blank : ascii := " "%char.

(** The characters [cs] at the columns [js]. *)
Definition sel (cs : list ascii) (js : list nat) : list ascii :=
  (fun j => nth j cs blank) <$> js.

(** A fence whose wave cells hold [v] and whose other cells hold [bg]. *)
Definition wave_grid (rails : Z) (n : nat) (v : nat -> nat -> string) (bg : string)
  : list (list string) :=
  grid (Z.to_nat rails) n
    (fun i j => if decide (i = row_of rails j) then v i j else bg).

(** The state of [decrypt]'s fill pass at the head of the iteration for cell
    [(i, j)]: the wave cells the sweep has passed hold the ciphertext
    characters [cs] in sweep order, the others still hold the marker, and
    [index] counts the cells filled. *)
Definition fill_state (rails : Z) (cs : list ascii) (i j : nat)
  : list (list string) * Z :=
  (wave_grid rails (length cs)
     (fun i' j' =>
        if decide (i' < i \/ (i' = i /\ j' < j))%nat
        then chr (nth (rank rails (length cs) i' j') cs blank)
        else "*"%string)
     newline,
   Z.of_nat (rank rails (length cs) i j)).

(** The heap of a call that found [h0]: the fence at the first free address,
    its rows [F] behind it, then the objects made later. *)
Definition layout (h0 : list obj) (F : list (list string)) (rest : list obj)
  : list obj :=
  h0 ++ RefList (seq (S (length h0)) (length F)) :: (StrList <$> F) ++ rest.

(** An outcome [out] on the heap is the outcome [r] on values: the same
    exception, or the same state, kept by the heap [H] draws from it. *)
Definition sim {Sp Sh} (H : Sp -> list obj) (pr : Sp -> Sh)
    (r : result Sp) (out : result Sh * list obj) : Prop :=
  match r with
  | Ok s' => out = (Ok (pr s'), H s')
  | Raise e => exists s'', out = (Raise e, H s'')
  end.

(** [decrypt(encrypt(text, rails), rails)] *)
Definition round_trip (text : string) (rails : Z) : result string :=
  c <- encrypt text rails ;; decrypt c rails.

(** ** The runtime fragment *)

Section Runtime.
Context {S : Type}.
Implicit Types (body : nat -> S -> result S) (s : S).

Lemma for_each_app xs ys body s :
  for_each (xs ++ ys) body s = (s' <- for_each xs body s ;; for_each ys body s').
Proof.
  revert s. induction xs as [|x xs IH]; intros s; simpl; [done|].
  destruct (body x s) as [s1|e]; simpl; [apply IH | done].
Qed.

(** Loop rule for [for k in range(n)]: an invariant that every iteration
    re-establishes without raising holds at the exit, and the loop
    returns. *)
Lemma for_range_inv (P : nat -> S -> Prop) (n : nat) body s0 :
  P 0%nat s0 ->
  (forall k s, (k < n)%nat -> P k s -> exists s', body k s = Ok s' /\ P (Datatypes.S k) s') ->
  exists s, for_each (seq 0 n) body s0 = Ok s /\ P n s.
Proof.
  intros H0 Hstep. induction n as [|n IH].
  - exists s0. done.
  - destruct IH as (s & Hs & HP); [intros; apply Hstep; [lia|done]|].
    destruct (Hstep n s) as (s' & Hb & HP'); [lia|done|].
    exists s'. split; [|done].
    rewrite seq_S, for_each_app, Hs. simpl. by rewrite Hb.
Qed.

(** The same rule when the state after [k] iterations is known in closed
    form. *)
Lemma for_range_fun (F : nat -> S) (n : nat) body s0 :
  s0 = F 0%nat ->
  (forall k, (k < n)%nat -> body k (F k) = Ok (F (Datatypes.S k))) ->
  for_each (seq 0 n) body s0 = Ok (F n).
Proof.
  intros H0 Hstep.
  destruct (for_range_inv (fun k s => s = F k) n body s0) as (s & Hs & ->);
    [done| |done].
  intros k s Hk ->. eauto.
Qed.
End Runtime.

Lemma range_of_nat (n : nat) : range (Z.of_nat n) = seq 0 n.
Proof. unfold range. by rewrite Nat2Z.id. Qed.

Lemma norm_index_nat (len i : nat) :
  (i < len)%nat -> norm_index len (Z.of_nat i) = Ok i.
Proof.
  intros Hi. unfold norm_index.
  replace (0 <=? Z.of_nat i) with true by (symmetry; apply Z.leb_le; lia).
  replace (Z.of_nat i <? Z.of_nat len) with true by (symmetry; apply Z.ltb_lt; lia).
  simpl. by rewrite Nat2Z.id.
Qed.

Lemma getitem_nat {A} (l : list A) (i : nat) (x : A) :
  l !! i = Some x -> getitem l (Z.of_nat i) = Ok x.
Proof.
  intros Hx. unfold getitem.
  rewrite norm_index_nat by (by eapply lookup_lt_Some). simpl. by rewrite Hx.
Qed.

Lemma setitem_nat {A} (l : list A) (i : nat) (v : A) :
  (i < length l)%nat -> setitem l (Z.of_nat i) v = Ok (<[i := v]> l).
Proof. intros Hi. unfold setitem. by rewrite norm_index_nat. Qed.

(** ** Strings as lists of characters *)

Section Strings.
Local Open Scope nat_scope.

Lemma len_chars s : len s = length (chars s).
Proof. unfold len, chars. induction s as [|c s IH]; simpl; congruence. Qed.

Lemma get_chars s k : String.get k s = chars s !! k.
Proof.
  unfold chars. revert k. induction s as [|c s IH]; intros [|k]; simpl; auto.
Qed.

Lemma str_getitem_nat s j c :
  chars s !! j = Some c -> str_getitem s (Z.of_nat j) = Ok (chr c).
Proof.
  intros Hc. unfold str_getitem.
  rewrite norm_index_nat by (rewrite len_chars; by eapply lookup_lt_Some).
  simpl. by rewrite get_chars, Hc.
Qed.

Lemma join_chr (l : list ascii) : join (chr <$> l) = string_of_list_ascii l.
Proof. induction l as [|c l IH]; [done|]. cbn. f_equal. exact IH. Qed.

Lemma string_chars s : string_of_list_ascii (chars s) = s.
Proof. apply string_of_list_ascii_of_string. Qed.

Lemma chars_string l : chars (string_of_list_ascii l) = l.
Proof. apply list_ascii_of_string_of_list_ascii. Qed.

Lemma chars_remove_spaces s :
  chars (remove_spaces s) = filter (fun c => c <> " "%char) (chars s).
Proof.
  unfold chars. induction s as [|c s IH]; simpl; [done|].
  destruct (Ascii.eqb_spec c " ") as [->|Hc].
  - by rewrite filter_cons_False by (intros H; by apply H).
  - rewrite filter_cons_True by done. simpl. by rewrite IH.
Qed.

Lemma remove_spaces_no_space s : " "%char ∉ chars (remove_spaces s).
Proof.
  rewrite chars_remove_spaces. intros H%list_elem_of_filter. by destruct H.
Qed.

Lemma remove_spaces_id s : " "%char ∉ chars s -> remove_spaces s = s.
Proof.
  unfold chars. induction s as [|c s IH]; simpl; [done|].
  intros [Hc Hs]%not_elem_of_cons.
  destruct (Ascii.eqb_spec c " ") as [->|_]; [done|]. by rewrite IH.
Qed.

Lemma remove_spaces_idemp s : remove_spaces (remove_spaces s) = remove_spaces s.
Proof. apply remove_spaces_id, remove_spaces_no_space. Qed.

Lemma chr_not_empty c : String.eqb (chr c) "" = false.
Proof. done. Qed.
End Strings.

(** ** Matrices given by their cells *)

Section Grid.
Local Open Scope nat_scope.
Implicit Types (g : nat -> nat -> string) (v : string).

Lemma length_grid r n g : length (grid r n g) = r.
Proof. unfold grid. by rewrite length_fmap, length_seq. Qed.

Lemma grid_row r n g i : i < r -> grid r n g !! i = Some (g i <$> seq 0 n).
Proof. intros Hi. unfold grid. by rewrite list_lookup_fmap, lookup_seq_lt. Qed.

Lemma row_cell n (h : nat -> string) j : j < n -> (h <$> seq 0 n) !! j = Some (h j).
Proof. intros Hj. by rewrite list_lookup_fmap, lookup_seq_lt. Qed.

Lemma row_ext n (h h' : nat -> string) :
  (forall j, j < n -> h j = h' j) -> h <$> seq 0 n = h' <$> seq 0 n.
Proof.
  intros H. apply list_eq; intros j. rewrite !list_lookup_fmap.
  destruct (decide (j < n)) as [Hj|Hj].
  - rewrite lookup_seq_lt by done. simpl. by rewrite H.
  - by rewrite lookup_seq_ge by lia.
Qed.

Lemma grid_ext r n g g' :
  (forall i j, i < r -> j < n -> g i j = g' i j) -> grid r n g = grid r n g'.
Proof.
  intros H. unfold grid. apply list_eq; intros i. rewrite !list_lookup_fmap.
  destruct (decide (i < r)) as [Hi|Hi].
  - rewrite lookup_seq_lt by done. simpl. f_equal. apply row_ext; auto.
  - by rewrite lookup_seq_ge by lia.
Qed.

Lemma new_fence_grid v n rails :
  new_fence v n rails = grid (Z.to_nat rails) n (fun _ _ => v).
Proof.
  unfold new_fence, grid, range. apply list_fmap_ext; intros _ i _.
  induction n as [|n IH]; [done|].
  by rewrite replicate_S_end, seq_S, fmap_app, <- IH.
Qed.

Lemma getitem2_grid r n g i j :
  i < r -> j < n -> getitem2 (grid r n g) (Z.of_nat i) (Z.of_nat j) = Ok (g i j).
Proof.
  intros Hi Hj. unfold getitem2.
  rewrite (getitem_nat _ _ _ (grid_row r n g i Hi)). simpl.
  by apply getitem_nat, row_cell.
Qed.

Lemma setitem2_grid r n g i j v :
  i < r -> j < n ->
  setitem2 (grid r n g) (Z.of_nat i) (Z.of_nat j) v =
  Ok (grid r n (fun i' j' => if decide (i' = i /\ j' = j) then v else g i' j')).
Proof.
  intros Hi Hj. unfold setitem2.
  rewrite (getitem_nat _ _ _ (grid_row r n g i Hi)). simpl.
  rewrite setitem_nat by (by rewrite length_fmap, length_seq). simpl.
  rewrite setitem_nat by (by rewrite length_grid). f_equal.
  apply list_eq; intros i'.
  destruct (decide (i' < r)) as [Hi'|Hi'].
  2:{ rewrite !(lookup_ge_None_2 _ i'); [done| |]; rewrite ?length_insert, length_grid; lia. }
  rewrite grid_row by done.
  destruct (decide (i = i')) as [<-|Hne].
  - rewrite list_lookup_insert_eq by (by rewrite length_grid). f_equal.
    apply list_eq; intros j'.
    destruct (decide (j' < n)) as [Hj'|Hj'].
    2:{ rewrite !(lookup_ge_None_2 _ j'); [done| |];
        rewrite ?length_insert, length_fmap, length_seq; lia. }
    rewrite row_cell by done.
    destruct (decide (j = j')) as [<-|Hnej].
    + rewrite list_lookup_insert_eq by (by rewrite length_fmap, length_seq).
      by rewrite decide_True.
    + rewrite list_lookup_insert_ne, row_cell by done.
      by rewrite decide_False by (intros []; congruence).
  - rewrite list_lookup_insert_ne, grid_row by done. f_equal.
    apply row_ext; intros j' _. by rewrite decide_False by (intros []; congruence).
Qed.
End Grid.

(** ** The cursor follows the triangle wave *)

Lemma succ_mod (k p : Z) :
  0 < p -> (k + 1) mod p = if k mod p + 1 <? p then k mod p + 1 else 0.
Proof.
  intros Hp. pose proof (Z.mod_pos_bound k p Hp) as Hm.
  pose proof (Z.div_mod k p ltac:(lia)) as Hk.
  destruct (Z.ltb_spec (k mod p + 1) p) as [Hlt|Hge]; symmetry.
  - apply (Z.mod_unique_pos _ _ (k / p)); lia.
  - apply (Z.mod_unique_pos _ _ (k / p + 1)); lia.
Qed.

Section Wave.
Variable rails : Z.
Hypothesis two_rails : 2 <= rails.

Lemma tri_bounds (c : Z) : 0 <= tri rails c <= rails - 1.
Proof.
  unfold tri. pose proof (Z.mod_pos_bound c (2 * rails - 2) ltac:(lia)).
  cbv zeta. destruct (Z.ltb_spec (c mod (2 * rails - 2)) rails); lia.
Qed.

Lemma on_wave_start : on_wave rails 0 start.
Proof.
  unfold on_wave, tri. rewrite Z.mod_0_l by lia. cbv zeta. simpl.
  destruct (Z.ltb_spec 0 rails); lia.
Qed.

Lemma on_wave_advance (k : Z) (c : cursor) :
  on_wave rails k c -> on_wave rails (k + 1) (advance rails c).
Proof.
  unfold on_wave, tri, advance. cbv zeta.
  rewrite succ_mod by lia.
  pose proof (Z.mod_pos_bound k (2 * rails - 2) ltac:(lia)) as Hm.
  set (m := k mod (2 * rails - 2)) in *. clearbody m.
  destruct c as [r d]. simpl. intros (Hr & Hdown & Hup).
  repeat match goal with
         | |- context [Z.ltb ?a ?b] => destruct (Z.ltb_spec a b)
         | |- context [Z.eqb ?a ?b] => destruct (Z.eqb_spec a b)
         | H : context [Z.ltb ?a ?b] |- _ => destruct (Z.ltb_spec a b)
         end; simpl; lia.
Qed.

Lemma walk_on_wave (k : nat) : on_wave rails (Z.of_nat k) (walk rails k).
Proof.
  induction k as [|k IH]; [apply on_wave_start|].
  rewrite Nat2Z.inj_succ, <- Z.add_1_r. by apply on_wave_advance.
Qed.

Lemma rail_walk (k : nat) : rail (walk rails k) = tri rails (Z.of_nat k).
Proof. by destruct (walk_on_wave k). Qed.

Lemma row_of_lt (j : nat) : (row_of rails j < Z.to_nat rails)%nat.
Proof. unfold row_of. pose proof (tri_bounds (Z.of_nat j)). lia. Qed.

Lemma rail_walk_row (k : nat) : rail (walk rails k) = Z.of_nat (row_of rails k).
Proof.
  rewrite rail_walk. unfold row_of. pose proof (tri_bounds (Z.of_nat k)). lia.
Qed.
End Wave.

(** ** The passes over the fence *)

(** Settles an equation between two cells given by cases on the position. *)
Ltac cells :=
  repeat case_decide;
  destruct_and?; subst;
  first [ done | lia | exfalso; lia | exfalso; intuition (first [lia | congruence]) ].

Section Passes.
Variable rails : Z.
Hypothesis two_rails : 2 <= rails.
Local Open Scope nat_scope.

Let r : nat := Z.to_nat rails.

(** A zigzag loop that writes [v k] at column [k] leaves [v] on the wave. *)
Lemma zigzag_write (v : nat -> string) (bg : string) (n : nat)
    (body : nat -> list (list string) * cursor -> result (list (list string) * cursor)) :
  (forall k fence c, k < n ->
     body k (fence, c) =
     (fence' <- setitem2 fence (rail c) (Z.of_nat k) (v k) ;;
      Ok (fence', advance rails c))) ->
  for_each (seq 0 n) body (new_fence bg n rails, start) =
  Ok (wave_grid rails n (fun _ j => v j) bg, walk rails n).
Proof.
  intros Hbody.
  pose (F := fun k : nat =>
    (grid r n (fun i j => if decide (j < k /\ i = row_of rails j) then v j else bg),
     walk rails k)).
  rewrite (for_range_fun F n body).
  - unfold F, wave_grid. do 2 f_equal. apply grid_ext; intros i j _ Hj.
    cells.
  - unfold F. f_equal. rewrite new_fence_grid. apply grid_ext; intros i j _ _.
    by rewrite decide_False by lia.
  - intros k Hk. unfold F. rewrite Hbody by done.
    rewrite rail_walk_row by done.
    rewrite setitem2_grid by (by auto using row_of_lt). simpl. do 2 f_equal.
    apply grid_ext; intros i j _ _.
    destruct (decide (j = k)) as [->|Hjk]; cells.
Qed.

Lemma populate_grid (text : string) :
  populate text rails =
  Ok (wave_grid rails (len text) (fun _ j => chr (nth j (chars text) blank)) "",
      walk rails (len text)).
Proof.
  unfold populate. rewrite range_of_nat. apply zigzag_write.
  intros k fence c Hk. unfold populate_body.
  rewrite (str_getitem_nat _ _ (nth k (chars text) blank)); [done|].
  rewrite len_chars in Hk.
  by destruct (nth_lookup_or_length (chars text) k blank); [|lia].
Qed.

Lemma mark_grid (n : nat) :
  mark n rails = Ok (wave_grid rails n (fun _ _ => "*"%string) newline, walk rails n).
Proof. unfold mark. rewrite range_of_nat. by apply zigzag_write. Qed.

Lemma read_zigzag_grid (n : nat) (g : nat -> nat -> string) :
  read_zigzag (grid r n g) n rails =
  Ok ((fun j => g (row_of rails j) j) <$> seq 0 n, walk rails n).
Proof.
  unfold read_zigzag. rewrite range_of_nat.
  apply (for_range_fun
           (fun k => ((fun j => g (row_of rails j) j) <$> seq 0 k, walk rails k)));
    [done|].
  intros k Hk. unfold zigzag_body. rewrite rail_walk_row by done.
  rewrite getitem2_grid by (by auto using row_of_lt).
  by rewrite seq_S, fmap_app.
Qed.
End Passes.

Section ReadRows.
Local Open Scope nat_scope.
Variables (rails : Z) (n : nat) (g : nat -> nat -> string).

Lemma read_row_grid (i : nat) (res : list string) :
  i < Z.to_nat rails ->
  for_each (seq 0 n) (read_cell (grid (Z.to_nat rails) n g) i) res =
  Ok (res ++ filter (fun s => s <> ""%string) (g i <$> seq 0 n)).
Proof.
  intros Hi.
  apply (for_range_fun
           (fun k => res ++ filter (fun s => s <> ""%string) (g i <$> seq 0 k))).
  { simpl. by rewrite app_nil_r. }
  intros k Hk. unfold read_cell. rewrite getitem2_grid by done.
  rewrite seq_S, fmap_app, filter_app. cbn [bind fmap list_fmap].
  destruct (String.eqb_spec (g i k) "") as [He|Hne].
  - rewrite filter_cons_False by (intros H; by apply H). by rewrite app_nil_r.
  - rewrite filter_cons_True by done. by rewrite app_assoc.
Qed.

Lemma read_rows_grid :
  read_rows (grid (Z.to_nat rails) n g) n rails =
  Ok (flat_map (fun i => filter (fun s => s <> ""%string) (g i <$> seq 0 n))
        (seq 0 (Z.to_nat rails))).
Proof.
  unfold read_rows. rewrite range_of_nat. unfold range.
  destruct (for_range_inv
    (fun k res => k <= Z.to_nat rails /\
       res = flat_map (fun i => filter (fun s => s <> ""%string) (g i <$> seq 0 n))
               (seq 0 k))
    (Z.to_nat rails)
    (fun i res => for_each (seq 0 n) (read_cell (grid (Z.to_nat rails) n g) i) res)
    []) as (res & Hres & _ & ->); [split; [lia|done]| |done].
  intros k res Hk [_ ->]. rewrite read_row_grid by done.
  eexists; split; [done|]. split; [lia|].
  rewrite seq_S, flat_map_app. simpl. by rewrite app_nil_r.
Qed.
End ReadRows.

(** ** The order of a row-by-row sweep *)

Section Order.
Local Open Scope nat_scope.
Variable rails : Z.
Variable n : nat.

Lemma rail_cols_S (j i : nat) :
  rail_cols rails (S j) i =
  rail_cols rails j i ++ (if decide (row_of rails j = i) then [j] else []).
Proof.
  unfold rail_cols. rewrite seq_S, filter_app. by f_equal.
Qed.

Lemma rank_S (i j : nat) :
  rank rails n i (S j) =
  rank rails n i j + (if decide (row_of rails j = i) then 1 else 0).
Proof.
  unfold rank. rewrite rail_cols_S, length_app. case_decide; simpl; lia.
Qed.

Lemma rails_cols_S (k : nat) :
  rails_cols rails n (S k) = rails_cols rails n k ++ rail_cols rails n k.
Proof.
  unfold rails_cols. rewrite seq_S, flat_map_app. simpl. by rewrite app_nil_r.
Qed.

(** Rails below [k] and rail [k] together make up the rails below [k+1]. *)
Lemma filter_rail_split (k : nat) (l : list nat) :
  filter (fun j => row_of rails j < k) l ++ filter (fun j => row_of rails j = k) l
  ≡ₚ filter (fun j => row_of rails j < S k) l.
Proof.
  induction l as [|a l IH]; [done|].
  rewrite !filter_cons. repeat case_decide; try lia; simpl.
  - by rewrite IH.
  - by rewrite <- Permutation_middle, IH.
  - done.
Qed.

Lemma rails_cols_perm (k : nat) :
  rails_cols rails n k ≡ₚ filter (fun j => row_of rails j < k) (seq 0 n).
Proof.
  induction k as [|k IH].
  - unfold rails_cols. simpl. induction (seq 0 n) as [|a l IHl]; [done|].
    by rewrite filter_cons_False by lia.
  - rewrite rails_cols_S, IH. apply filter_rail_split.
Qed.

Hypothesis two_rails : (2 <= rails)%Z.

Lemma order_perm : order rails n ≡ₚ seq 0 n.
Proof.
  unfold order. rewrite rails_cols_perm.
  induction (seq 0 n) as [|a l IHl]; [done|].
  rewrite filter_cons_True by (by apply row_of_lt). by rewrite IHl.
Qed.

Lemma length_order : length (order rails n) = n.
Proof. by rewrite order_perm, length_seq. Qed.

Lemma seq_split (j m : nat) : j < m -> seq 0 m = seq 0 j ++ j :: seq (S j) (m - S j).
Proof.
  intros Hj. replace m with (j + S (m - S j)) at 1 by lia.
  by rewrite seq_app.
Qed.

(** Column [j] sits in the sweep right after the [rank] cells before it. *)
Lemma order_split (j : nat) :
  j < n ->
  exists front back,
    order rails n = front ++ j :: back /\
    length front = rank rails n (row_of rails j) j.
Proof.
  intros Hj. set (i := row_of rails j).
  assert (Hi : i < Z.to_nat rails) by (by apply row_of_lt).
  exists (rails_cols rails n i ++ rail_cols rails j i).
  exists (filter (fun j' => row_of rails j' = i) (seq (S j) (n - S j)) ++
          flat_map (rail_cols rails n) (seq (S i) (Z.to_nat rails - S i))).
  split; [|by rewrite length_app].
  unfold order, rails_cols. rewrite (seq_split i (Z.to_nat rails)) by done.
  rewrite flat_map_app. simpl. rewrite <- !app_assoc. f_equal.
  unfold rail_cols at 1. rewrite (seq_split j n) by done.
  rewrite filter_app, filter_cons_True by done.
  by rewrite <- !app_assoc.
Qed.

Lemma rank_lt (j : nat) : j < n -> rank rails n (row_of rails j) j < n.
Proof.
  intros Hj. destruct (order_split j Hj) as (front & back & Heq & <-).
  pose proof length_order as Hlen. rewrite Heq, length_app in Hlen.
  simpl in Hlen. lia.
Qed.

Lemma order_rank (j : nat) :
  j < n -> order rails n !! rank rails n (row_of rails j) j = Some j.
Proof.
  intros Hj. destruct (order_split j Hj) as (front & back & -> & <-).
  apply list_lookup_middle. done.
Qed.
End Order.

(** ** What [encrypt] returns *)

Section Encrypt.
Local Open Scope nat_scope.
Variable rails : Z.
Hypothesis two_rails : (2 <= rails)%Z.

Lemma filter_wave_row (i : nat) (c : nat -> ascii) (l : list nat) :
  filter (fun s => s <> ""%string)
    ((fun j => if decide (i = row_of rails j) then chr (c j) else ""%string) <$> l) =
  chr <$> (c <$> filter (fun j => row_of rails j = i) l).
Proof.
  induction l as [|a l IH]; [done|].
  rewrite fmap_cons, !filter_cons, IH.
  repeat case_decide; first [done | by subst].
Qed.

Lemma flat_map_fmap {A B} (f : A -> B) (h : nat -> list A) (l : list nat) :
  flat_map (fun i => f <$> h i) l = f <$> flat_map h l.
Proof. induction l as [|a l IH]; simpl; [done|]. by rewrite IH, fmap_app. Qed.

Lemma nth_chars (cs : list ascii) (k : nat) :
  k < length cs -> cs !! k = Some (nth k cs blank).
Proof. intros Hk. by destruct (nth_lookup_or_length cs k blank); [|lia]. Qed.

Lemma sel_seq (cs : list ascii) : sel cs (seq 0 (length cs)) = cs.
Proof.
  unfold sel. apply list_eq; intros k. rewrite list_lookup_fmap.
  destruct (decide (k < length cs)) as [Hk|Hk].
  - rewrite lookup_seq_lt by done. simpl. by rewrite nth_chars.
  - rewrite lookup_seq_ge by lia. by rewrite lookup_ge_None_2 by lia.
Qed.

Lemma encrypt_sel (text : string) :
  encrypt text rails =
  Ok (string_of_list_ascii
        (sel (chars (remove_spaces text))
             (order rails (length (chars (remove_spaces text)))))).
Proof.
  unfold encrypt. cbv zeta. rewrite populate_grid by done. cbn [bind fst].
  unfold wave_grid. rewrite read_rows_grid. cbn [bind]. f_equal.
  rewrite <- len_chars, <- join_chr. f_equal.
  rewrite (flat_map_ext _ _ (fun i => filter_wave_row i _ _)).
  by rewrite !flat_map_fmap.
Qed.

Lemma sel_perm (cs : list ascii) : sel cs (order rails (length cs)) ≡ₚ cs.
Proof.
  rewrite <- (sel_seq cs) at 3. unfold sel. apply fmap_Permutation.
  by apply order_perm.
Qed.
End Encrypt.

(** ** What [decrypt] returns *)

Section Decrypt.
Local Open Scope nat_scope.
Variable rails : Z.
Hypothesis two_rails : (2 <= rails)%Z.
Variable ciphertext : string.

Let cs : list ascii := chars ciphertext.
Let n : nat := length cs.

Lemma fill_cell_step (i j : nat) :
  i < Z.to_nat rails -> j < n ->
  fill_cell ciphertext i j (fill_state rails cs i j) = Ok (fill_state rails cs i (S j)).
Proof.
  intros Hi Hj. unfold fill_state, fill_cell, wave_grid. fold n.
  rewrite getitem2_grid by done. cbn [bind].
  rewrite rank_S.
  destruct (decide (i = row_of rails j)) as [->|Hrow].
  - rewrite decide_False by lia. cbn [String.eqb Ascii.eqb Bool.eqb andb].
    pose proof (rank_lt rails n two_rails j Hj) as Hlt.
    rewrite len_chars. fold cs n.
    replace (_ <? _)%Z with true by (symmetry; apply Z.ltb_lt; lia).
    rewrite (str_getitem_nat _ _ _ (nth_chars cs _ Hlt)). cbn [bind].
    rewrite setitem2_grid by done. cbn [bind].
    rewrite decide_True by done.
    f_equal. f_equal; [|lia].
    apply grid_ext; intros i' j' _ _.
    destruct (decide (j' = j)) as [->|Hjj]; cells.
  - rewrite decide_False by done. rewrite Nat.add_0_r.
    unfold newline, chr. cbn [String.eqb Ascii.eqb Bool.eqb andb].
    f_equal. f_equal.
    apply grid_ext; intros i' j' _ _.
    destruct (decide (j' = j)) as [->|Hjj]; cells.
Qed.

Lemma fill_state_row_end (i : nat) :
  fill_state rails cs i n = fill_state rails cs (S i) 0.
Proof.
  unfold fill_state, wave_grid. fold n. f_equal.
  - apply grid_ext; intros i' j' _ Hj'. cells.
  - unfold rank. rewrite rails_cols_S, length_app. by rewrite Nat.add_0_r.
Qed.

Lemma fill_grid :
  fill ciphertext rails (wave_grid rails n (fun _ _ => "*"%string) newline) =
  Ok (fill_state rails cs (Z.to_nat rails) 0).
Proof.
  unfold fill, range. rewrite Nat2Z.id, len_chars. fold cs n.
  apply (for_range_fun (fun i => fill_state rails cs i 0)).
  - unfold fill_state, wave_grid. fold n. f_equal.
    apply grid_ext; intros i j _ _. cells.
  - intros i Hi. rewrite <- fill_state_row_end.
    apply (for_range_fun (fun j => fill_state rails cs i j)); [done|].
    intros j Hj. by apply fill_cell_step.
Qed.

Lemma decrypt_stripped :
  remove_spaces ciphertext = ciphertext ->
  decrypt ciphertext rails =
  Ok (string_of_list_ascii
        ((fun j => nth (rank rails n (row_of rails j) j) cs blank) <$> seq 0 n)).
Proof.
  intros Hs. unfold decrypt. cbv zeta. rewrite Hs, len_chars. fold cs n.
  rewrite mark_grid by done. cbn [bind fst].
  rewrite fill_grid. cbn [bind fst].
  unfold fill_state, wave_grid. cbn [fst]. fold n.
  rewrite read_zigzag_grid by done. cbn [bind fst]. f_equal.
  rewrite <- join_chr, <- list_fmap_compose. f_equal.
  apply list_fmap_ext; intros k j Hk.
  apply lookup_seq in Hk as [Hjk Hk]. simpl in Hjk. subst k. simpl.
  rewrite decide_True by done.
  rewrite decide_True; [done|]. left. by apply row_of_lt.
Qed.
End Decrypt.

(** ** Fewer than two rails *)

Section FewRails.
Local Open Scope nat_scope.

Lemma norm_index_out (len : nat) (i : Z) :
  (Z.of_nat len <= i)%Z -> norm_index len i = Raise IndexError.
Proof.
  intros Hi. unfold norm_index.
  replace (i <? Z.of_nat len)%Z with false by (symmetry; apply Z.ltb_ge; lia).
  replace (i <? 0)%Z with false by (symmetry; apply Z.ltb_ge; lia).
  by rewrite andb_false_r.
Qed.

Lemma setitem2_out {A} (m : list (list A)) (i j : Z) (v : A) :
  (Z.of_nat (length m) <= i)%Z -> setitem2 m i j v = Raise IndexError.
Proof. intros Hi. unfold setitem2, getitem. by rewrite norm_index_out. Qed.

Lemma length_new_fence v n rails : length (new_fence v n rails) = Z.to_nat rails.
Proof. by rewrite new_fence_grid, length_grid. Qed.

(** With no rail at all the first write of the first loop is out of range. *)
Lemma populate_no_rail (a : ascii) (s : string) (rails : Z) :
  (rails <= 0)%Z -> populate (String a s) rails = Raise IndexError.
Proof.
  intros Hr. unfold populate. rewrite range_of_nat.
  change (seq 0 (len (String a s))) with (0 :: seq 1 (len s)).
  cbn [for_each]. unfold populate_body at 1.
  rewrite (str_getitem_nat _ 0 a) by done. cbn [bind].
  rewrite setitem2_out; [done|]. rewrite length_new_fence. simpl. lia.
Qed.

(** With one rail the cursor leaves the fence after the first column. *)
Lemma populate_one_rail (a b : ascii) (s : string) :
  populate (String a (String b s)) 1 = Raise IndexError.
Proof.
  unfold populate. rewrite range_of_nat.
  change (seq 0 (len (String a (String b s)))) with (0 :: 1 :: seq 2 (len s)).
  cbn [for_each]. unfold populate_body at 1.
  rewrite (str_getitem_nat _ 0 a) by done. cbn [bind].
  rewrite new_fence_grid.
  rewrite (setitem2_grid _ _ _ 0 0) by (simpl; lia). cbn [bind].
  unfold populate_body at 1.
  rewrite (str_getitem_nat _ 1 b) by done. cbn [bind].
  rewrite setitem2_out; [done|]. by rewrite length_grid.
Qed.

Lemma encrypt_one_rail (text : string) :
  encrypt text 1 =
  if len (remove_spaces text) <=? 1 then Ok (remove_spaces text)
  else Raise IndexError.
Proof.
  unfold encrypt. cbv zeta.
  destruct (remove_spaces text) as [|a [|b s]]; [done|done|].
  by rewrite populate_one_rail.
Qed.

Lemma encrypt_no_rail (text : string) (rails : Z) :
  (rails <= 0)%Z ->
  encrypt text rails =
  if len (remove_spaces text) =? 0 then Ok ""%string else Raise IndexError.
Proof.
  intros Hr. unfold encrypt. cbv zeta.
  destruct (remove_spaces text) as [|a s].
  - unfold populate, read_rows, range. simpl.
    by replace (Z.to_nat rails) with 0 by lia.
  - by rewrite populate_no_rail.
Qed.
End FewRails.

(** ** Two rails or more *)

Section TwoRails.
Local Open Scope nat_scope.
Variable rails : Z.
Hypothesis two_rails : (2 <= rails)%Z.

Lemma decrypt_strip (text : string) :
  decrypt text rails = decrypt (remove_spaces text) rails.
Proof. unfold decrypt. cbv zeta. by rewrite remove_spaces_idemp. Qed.

Lemma encrypt_returns (text : string) :
  exists out, encrypt text rails = Ok out /\
    chars out = sel (chars (remove_spaces text))
                  (order rails (length (chars (remove_spaces text)))).
Proof. eexists. split; [by apply encrypt_sel|]. by rewrite chars_string. Qed.

Lemma decrypt_returns (text : string) : exists out, decrypt text rails = Ok out.
Proof.
  rewrite decrypt_strip, decrypt_stripped by (done || apply remove_spaces_idemp).
  eauto.
Qed.

Lemma round_trip_two_rails (text : string) :
  round_trip text rails = Ok (remove_spaces text).
Proof.
  unfold round_trip. rewrite encrypt_sel by done. cbn [bind].
  set (cs := chars (remove_spaces text)).
  assert (Hsp : " "%char ∉ sel cs (order rails (length cs))).
  { rewrite (sel_perm rails two_rails cs). apply remove_spaces_no_space. }
  rewrite decrypt_stripped by (done || by apply remove_spaces_id; rewrite chars_string).
  rewrite chars_string. f_equal.
  rewrite <- (string_chars (remove_spaces text)). fold cs. f_equal.
  assert (Hlen : length (sel cs (order rails (length cs))) = length cs).
  { by rewrite (sel_perm rails two_rails cs). }
  rewrite Hlen. etrans; [|apply (sel_seq cs)]. unfold sel at 2.
  apply list_fmap_ext; intros k j Hk.
  apply lookup_seq in Hk as [Hjk Hk]. simpl in Hjk. subst k.
  apply nth_lookup_Some. unfold sel.
  by rewrite list_lookup_fmap, order_rank.
Qed.
End TwoRails.

(** ** Any number of rails *)

Lemma encrypt_strip (text : string) (rails : Z) :
  encrypt text rails = encrypt (remove_spaces text) rails.
Proof. unfold encrypt. cbv zeta. by rewrite remove_spaces_idemp. Qed.

(** Whatever [encrypt] returns is a rearrangement of the stripped input. *)
Lemma encrypt_output_perm (text : string) (rails : Z) (out : string) :
  encrypt text rails = Ok out -> chars out ≡ₚ chars (remove_spaces text).
Proof.
  intros Hout.
  destruct (decide (2 <= rails)) as [H2|H2].
  - rewrite encrypt_sel in Hout by done. injection Hout as <-.
    rewrite chars_string. by apply sel_perm.
  - destruct (decide (rails = 1)) as [->|H1].
    + rewrite encrypt_one_rail in Hout.
      destruct (len (remove_spaces text) <=? 1)%nat; [|done].
      by injection Hout as <-.
    + rewrite encrypt_no_rail in Hout by lia.
      destruct (Nat.eqb_spec (len (remove_spaces text)) 0) as [H0|H0]; [|done].
      injection Hout as <-. rewrite len_chars in H0.
      by rewrite (nil_length_inv _ H0).
Qed.

Lemma cursor_in_fence (rails : Z) (k : nat) :
  2 <= rails -> 0 <= rail (walk rails k) <= rails - 1.
Proof. intros H2. rewrite rail_walk by done. by apply tri_bounds. Qed.

(** A fence of [r] rows of [n] cells is the matrix of its cells. *)
Lemma grid_of_shape (fence : list (list string)) (r n : nat) :
  length fence = r -> Forall (fun row => length row = n) fence ->
  fence = grid r n (fun i j => nth j (nth i fence []) ""%string).
Proof.
  intros Hr Hn. apply list_eq; intros i.
  destruct (decide (i < r)%nat) as [Hi|Hi].
  2:{ rewrite !lookup_ge_None_2; [done| |]; rewrite ?length_grid; lia. }
  rewrite grid_row by done.
  destruct (lookup_lt_is_Some_2 fence i) as [row Hrow]; [lia|].
  rewrite Hrow. f_equal. rewrite (nth_lookup_Some _ _ _ _ Hrow).
  assert (Hlen : length row = n).
  { rewrite Forall_forall in Hn. apply Hn. by eapply list_elem_of_lookup_2. }
  apply list_eq; intros j.
  destruct (decide (j < n)%nat) as [Hj|Hj].
  2:{ rewrite !lookup_ge_None_2; [done| |]; rewrite ?length_fmap, ?length_seq; lia. }
  rewrite row_cell by done.
  destruct (lookup_lt_is_Some_2 row j) as [cell Hcell]; [lia|].
  by rewrite Hcell, (nth_lookup_Some _ _ _ _ Hcell).
Qed.

Lemma row_of_tri (rails : Z) (i j : nat) :
  2 <= rails -> i = row_of rails j <-> Z.of_nat i = tri rails (Z.of_nat j).
Proof.
  intros H2. unfold row_of. pose proof (tri_bounds rails H2 (Z.of_nat j)). lia.
Qed.

Lemma wave_grid_cell (rails : Z) (n : nat) (v : nat -> nat -> string) (bg : string)
    (i j : nat) :
  2 <= rails -> (i < Z.to_nat rails)%nat -> (j < n)%nat ->
  getitem2 (wave_grid rails n v bg) (Z.of_nat i) (Z.of_nat j) =
  Ok (if decide (Z.of_nat i = tri rails (Z.of_nat j)) then v i j else bg).
Proof.
  intros H2 Hi Hj. unfold wave_grid. rewrite getitem2_grid by done. f_equal.
  pose proof (row_of_tri rails i j H2). repeat case_decide; tauto.
Qed.

(** ** The heap embedding against the value embedding *)

Lemma norm_index_lt (n : nat) (i : Z) (k : nat) :
  norm_index n i = Ok k -> (k < n)%nat.
Proof.
  unfold norm_index.
  destruct (Z.leb_spec 0 i), (Z.ltb_spec i (Z.of_nat n)); simpl;
    try (intros [= <-]; lia);
    destruct (Z.ltb_spec i 0), (Z.leb_spec (- Z.of_nat n) i); simpl;
    try done; intros [= <-]; lia.
Qed.

Lemma getitem_seq (s r : nat) (i : Z) :
  getitem (seq s r) i = (k <- norm_index r i ;; Ok (s + k)%nat).
Proof.
  unfold getitem. rewrite length_seq.
  destruct (norm_index r i) as [k|e] eqn:Hk; simpl; [|done].
  by rewrite lookup_seq_lt by (by eapply norm_index_lt).
Qed.

Section OnHeap.
Local Open Scope nat_scope.
Variable h0 : list obj.

Lemma length_layout F rest :
  length (layout h0 F rest) = S (length h0) + length F + length rest.
Proof.
  unfold layout. rewrite length_app. simpl. rewrite length_app, length_fmap. lia.
Qed.

Lemma layout_fence F rest :
  layout h0 F rest !! length h0 = Some (RefList (seq (S (length h0)) (length F))).
Proof. unfold layout. by rewrite list_lookup_middle. Qed.

Lemma layout_row F rest k row :
  F !! k = Some row -> layout h0 F rest !! (S (length h0) + k) = Some (StrList row).
Proof.
  intros Hk. unfold layout. rewrite lookup_app_r by lia.
  replace (S (length h0) + k - length h0) with (S k) by lia. simpl.
  rewrite lookup_app_l by (rewrite length_fmap; by eapply lookup_lt_Some).
  by rewrite list_lookup_fmap, Hk.
Qed.

Lemma layout_update_row F rest k row' :
  k < length F ->
  <[S (length h0) + k := StrList row']> (layout h0 F rest) =
  layout h0 (<[k := row']> F) rest.
Proof.
  intros Hk. unfold layout. rewrite length_insert.
  rewrite insert_app_r_alt by lia.
  replace (S (length h0) + k - length h0) with (S k) by lia. simpl.
  rewrite insert_app_l by (by rewrite length_fmap).
  by rewrite list_fmap_insert.
Qed.

Lemma layout_rest F o rest :
  layout h0 F (o :: rest) !! (S (length h0) + length F) = Some o.
Proof.
  unfold layout. rewrite lookup_app_r by lia.
  replace (S (length h0) + length F - length h0) with (S (length F)) by lia. simpl.
  rewrite lookup_app_r by (rewrite length_fmap; lia).
  by rewrite length_fmap, Nat.sub_diag.
Qed.

Lemma layout_update_rest F o o' rest :
  <[S (length h0) + length F := o']> (layout h0 F (o :: rest)) =
  layout h0 F (o' :: rest).
Proof.
  unfold layout. rewrite insert_app_r_alt by lia.
  replace (S (length h0) + length F - length h0) with (S (length F)) by lia. simpl.
  rewrite insert_app_r_alt by (rewrite length_fmap; lia).
  by rewrite length_fmap, Nat.sub_diag.
Qed.

Lemma layout_alloc F o :
  alloc o (layout h0 F []) = (Ok (S (length h0) + length F), layout h0 F [o]).
Proof.
  unfold alloc. rewrite length_layout. simpl. f_equal; [f_equal; lia|].
  unfold layout. by rewrite <- !app_assoc, <- app_comm_cons, app_nil_r.
Qed.

(** [fence[i]] finds the address of row [i]. *)
Lemma refs_getitem_layout F rest i :
  refs_getitem (length h0) i (layout h0 F rest) =
  (k <- norm_index (length F) i ;; Ok (S (length h0) + k), layout h0 F rest).
Proof.
  unfold refs_getitem, bindM, refs_of, lift. by rewrite layout_fence, getitem_seq.
Qed.

(** [fence[i][j] = v] on the heap is [setitem2] on the rows. *)
Lemma setitem2_layout F rest i j v :
  setitem2_h (length h0) i j v (layout h0 F rest) =
  match setitem2 F i j v with
  | Ok F' => (Ok tt, layout h0 F' rest)
  | Raise e => (Raise e, layout h0 F rest)
  end.
Proof.
  unfold setitem2_h, bindM at 1. rewrite refs_getitem_layout.
  unfold setitem2, getitem.
  destruct (norm_index (length F) i) as [k|e] eqn:Hk; cbn [bind]; [|done].
  pose proof (norm_index_lt _ _ _ Hk) as Hlt.
  destruct (lookup_lt_is_Some_2 F k Hlt) as [row Hrow]. rewrite Hrow. cbn [bind].
  unfold cells_setitem, bindM, cells_of, lift, update.
  rewrite (layout_row _ _ _ _ Hrow).
  destruct (setitem row j v) as [row'|e]; cbn [bind]; [|done].
  unfold setitem. rewrite Hk. cbn [bind]. by rewrite layout_update_row.
Qed.

(** [fence[i][j]] on the heap is [getitem2] on the rows. *)
Lemma getitem2_layout F rest i j :
  getitem2_h (length h0) i j (layout h0 F rest) =
  (getitem2 F i j, layout h0 F rest).
Proof.
  unfold getitem2_h, bindM at 1. rewrite refs_getitem_layout.
  unfold getitem2, getitem at 1.
  destruct (norm_index (length F) i) as [k|e] eqn:Hk; cbn [bind]; [|done].
  pose proof (norm_index_lt _ _ _ Hk) as Hlt.
  destruct (lookup_lt_is_Some_2 F k Hlt) as [row Hrow]. rewrite Hrow. cbn [bind].
  unfold cells_getitem, bindM, cells_of, lift.
  by rewrite (layout_row _ _ _ _ Hrow).
Qed.

(** [result.append(v)] for the list made right after the fence. *)
Lemma append_layout F res v :
  cells_append (S (length h0) + length F) v (layout h0 F [StrList res]) =
  (Ok tt, layout h0 F [StrList (res ++ [v])]).
Proof.
  unfold cells_append, bindM, cells_of, update.
  by rewrite layout_rest, layout_update_rest.
Qed.

Lemma cells_of_layout F res :
  cells_of (S (length h0) + length F) (layout h0 F [StrList res]) =
  (Ok res, layout h0 F [StrList res]).
Proof. unfold cells_of. by rewrite layout_rest. Qed.
End OnHeap.

(** A loop on the heap follows the loop on values when its body does. *)
Lemma for_each_sim {Sp Sh} (H : Sp -> list obj) (pr : Sp -> Sh)
    (body : nat -> Sp -> result Sp) (body_h : nat -> Sh -> M Sh) :
  (forall x s, sim H pr (body x s) (body_h x (pr s) (H s))) ->
  forall xs s, sim H pr (for_each xs body s) (for_each_h xs body_h (pr s) (H s)).
Proof.
  intros Hbody xs. induction xs as [|x xs IH]; intros s; [done|].
  cbn [for_each for_each_h]. unfold bindM. specialize (Hbody x s).
  destruct (body x s) as [s1|e]; cbn [bind sim] in *.
  - rewrite Hbody. apply IH.
  - destruct Hbody as [s'' ->]. eauto.
Qed.

Lemma layout_extends (h0 : list obj) F rest : exists garbage, layout h0 F rest = h0 ++ garbage.
Proof. unfold layout. eauto. Qed.

Lemma raise_extends {A} (e : exn) (h0 : list obj) F rest :
  exists garbage, (@Raise A e, layout h0 F rest) = (Raise e, h0 ++ garbage).
Proof. destruct (layout_extends h0 F rest) as [garbage ->]. eauto. Qed.

Section Calls.
Local Open Scope nat_scope.
Variable h0 : list obj.

(** The comprehension leaves the fence object and one row object per rail. *)
Lemma new_rows_layout (fill : string) (n : nat) (xs : list nat) F :
  for_each_h xs
    (fun _ _ => row <~ alloc (StrList (replicate n fill)) ;;
                refs_append (length h0) row) tt (layout h0 F []) =
  (Ok tt, layout h0 (F ++ ((fun _ => replicate n fill) <$> xs)) []).
Proof.
  revert F. induction xs as [|x xs IH]; intros F.
  - by rewrite app_nil_r.
  - cbn [for_each_h]. unfold bindM at 1, bindM at 1. rewrite layout_alloc.
    unfold refs_append, bindM, refs_of, update. rewrite layout_fence.
    replace (<[length h0 := _]> (layout h0 F [StrList (replicate n fill)]))
      with (layout h0 (F ++ [replicate n fill]) []).
    + rewrite IH. by rewrite <- app_assoc.
    + unfold layout. rewrite insert_app_r_alt, Nat.sub_diag by lia. simpl.
      rewrite length_app, Nat.add_1_r, seq_S, fmap_app, app_nil_r. simpl.
      repeat f_equal; lia.
Qed.

Lemma new_fence_layout (fill : string) (n : nat) (rails : Z) :
  new_fence_h fill n rails h0 = (Ok (length h0), layout h0 (new_fence fill n rails) []).
Proof.
  unfold new_fence_h, bindM at 1, alloc at 1.
  change (h0 ++ [RefList []]) with (layout h0 [] []).
  unfold bindM at 1. by rewrite new_rows_layout.
Qed.

(** The two zigzag loops that write. *)
Lemma populate_sim (text : string) (rails : Z) (col : nat)
    (st : list (list string) * cursor) :
  sim (fun st => layout h0 (fst st) []) snd
    (populate_body text rails col st)
    ((ch <~ lift (str_getitem text (Z.of_nat col)) ;;
      _ <~ setitem2_h (length h0) (rail (snd st)) (Z.of_nat col) ch ;;
      ret (advance rails (snd st))) (layout h0 (fst st) [])).
Proof.
  destruct st as [F c]. unfold populate_body, bindM at 1, lift. cbn [fst snd].
  destruct (str_getitem text (Z.of_nat col)) as [ch|e]; cbn [bind sim];
    [|by exists (F, c)].
  unfold bindM. rewrite setitem2_layout.
  destruct (setitem2 F (rail c) (Z.of_nat col) ch) as [F'|e]; cbn [bind sim];
    [done|by exists (F, c)].
Qed.

Lemma mark_sim (rails : Z) (col : nat) (st : list (list string) * cursor) :
  sim (fun st => layout h0 (fst st) []) snd
    (mark_body rails col st)
    ((_ <~ setitem2_h (length h0) (rail (snd st)) (Z.of_nat col) "*" ;;
      ret (advance rails (snd st))) (layout h0 (fst st) [])).
Proof.
  destruct st as [F c]. unfold mark_body, bindM. cbn [fst snd].
  rewrite setitem2_layout.
  destruct (setitem2 F (rail c) (Z.of_nat col) "*") as [F'|e]; cbn [bind sim];
    [done|by exists (F, c)].
Qed.

(** The fill pass. *)
Lemma fill_sim (ciphertext : string) (i j : nat) (st : list (list string) * Z) :
  sim (fun st => layout h0 (fst st) []) snd
    (fill_cell ciphertext i j st)
    ((cell <~ getitem2_h (length h0) (Z.of_nat i) (Z.of_nat j) ;;
      if String.eqb cell "*" && (snd st <? Z.of_nat (len ciphertext))%Z then
        ch <~ lift (str_getitem ciphertext (snd st)) ;;
        _ <~ setitem2_h (length h0) (Z.of_nat i) (Z.of_nat j) ch ;;
        ret (snd st + 1)%Z
      else ret (snd st)) (layout h0 (fst st) [])).
Proof.
  destruct st as [F index]. unfold fill_cell, bindM at 1. cbn [fst snd].
  rewrite getitem2_layout.
  destruct (getitem2 F (Z.of_nat i) (Z.of_nat j)) as [cell|e]; cbn [bind sim];
    [|by exists (F, index)].
  destruct (String.eqb cell "*" && (index <? Z.of_nat (len ciphertext))%Z); [|done].
  unfold bindM at 1, lift.
  destruct (str_getitem ciphertext index) as [ch|e]; cbn [bind sim];
    [|by exists (F, index)].
  unfold bindM. rewrite setitem2_layout.
  destruct (setitem2 F (Z.of_nat i) (Z.of_nat j) ch) as [F'|e]; cbn [bind sim];
    [done|by exists (F, index)].
Qed.

(** The read-off by row, onto the [result] list made after the fence [F]. *)
Lemma read_cell_sim F (i j : nat) (res : list string) :
  sim (fun res => layout h0 F [StrList res]) (fun _ => tt)
    (read_cell F i j res)
    ((cell <~ getitem2_h (length h0) (Z.of_nat i) (Z.of_nat j) ;;
      if String.eqb cell "" then ret tt
      else
        cell <~ getitem2_h (length h0) (Z.of_nat i) (Z.of_nat j) ;;
        cells_append (S (length h0) + length F) cell)
       (layout h0 F [StrList res])).
Proof.
  unfold read_cell, bindM at 1. rewrite getitem2_layout.
  destruct (getitem2 F (Z.of_nat i) (Z.of_nat j)) as [cell|e] eqn:Hcell;
    cbn [bind sim]; [|by exists res].
  destruct (String.eqb cell ""); [done|].
  unfold bindM. rewrite getitem2_layout, Hcell. by rewrite append_layout.
Qed.

(** The read-out along the zigzag. *)
Lemma zigzag_sim F (rails : Z) (col : nat) (st : list string * cursor) :
  sim (fun st => layout h0 F [StrList (fst st)]) snd
    (zigzag_body F rails col st)
    ((cell <~ getitem2_h (length h0) (rail (snd st)) (Z.of_nat col) ;;
      _ <~ cells_append (S (length h0) + length F) cell ;;
      ret (advance rails (snd st))) (layout h0 F [StrList (fst st)])).
Proof.
  destruct st as [res c]. unfold zigzag_body, bindM at 1. cbn [fst snd].
  rewrite getitem2_layout.
  destruct (getitem2 F (rail c) (Z.of_nat col)) as [cell|e]; cbn [bind sim];
    [|by exists (res, c)].
  unfold bindM. by rewrite append_layout.
Qed.

Lemma populate_loop_sim (text : string) (rails : Z) :
  sim (fun st => layout h0 (fst st) []) snd
    (populate text rails)
    (for_each_h (range (Z.of_nat (len text)))
       (fun col c =>
          ch <~ lift (str_getitem text (Z.of_nat col)) ;;
          _ <~ setitem2_h (length h0) (rail c) (Z.of_nat col) ch ;;
          ret (advance rails c))
       start (layout h0 (new_fence "" (len text) rails) [])).
Proof.
  exact (for_each_sim (fun st => layout h0 (fst st) []) snd
           (populate_body text rails) _ (populate_sim text rails)
           (range (Z.of_nat (len text))) (new_fence "" (len text) rails, start)).
Qed.

Lemma mark_loop_sim (n : nat) (rails : Z) :
  sim (fun st => layout h0 (fst st) []) snd
    (mark n rails)
    (for_each_h (range (Z.of_nat n))
       (fun col c =>
          _ <~ setitem2_h (length h0) (rail c) (Z.of_nat col) "*" ;;
          ret (advance rails c))
       start (layout h0 (new_fence newline n rails) [])).
Proof.
  exact (for_each_sim (fun st => layout h0 (fst st) []) snd
           (mark_body rails) _ (mark_sim rails)
           (range (Z.of_nat n)) (new_fence newline n rails, start)).
Qed.

Lemma fill_loop_sim (ciphertext : string) (rails : Z) F :
  sim (fun st => layout h0 (fst st) []) snd
    (fill ciphertext rails F)
    (for_each_h (range rails)
       (fun i index =>
          for_each_h (range (Z.of_nat (len ciphertext)))
            (fun j index =>
               cell <~ getitem2_h (length h0) (Z.of_nat i) (Z.of_nat j) ;;
               if String.eqb cell "*" && (index <? Z.of_nat (len ciphertext))%Z then
                 ch <~ lift (str_getitem ciphertext index) ;;
                 _ <~ setitem2_h (length h0) (Z.of_nat i) (Z.of_nat j) ch ;;
                 ret (index + 1)%Z
               else ret index) index)
       0%Z (layout h0 F [])).
Proof.
  refine (for_each_sim (fun st => layout h0 (fst st) []) snd
            (fun i st =>
               for_each (range (Z.of_nat (len ciphertext))) (fill_cell ciphertext i) st)
            _ _ (range rails) (F, 0%Z)).
  intros i st.
  exact (for_each_sim (fun st => layout h0 (fst st) []) snd
           (fill_cell ciphertext i) _ (fill_sim ciphertext i)
           (range (Z.of_nat (len ciphertext))) st).
Qed.

Lemma read_rows_sim F (n : nat) (rails : Z) :
  sim (fun res => layout h0 F [StrList res]) (fun _ => tt)
    (read_rows F n rails)
    (for_each_h (range rails)
       (fun i _ =>
          for_each_h (range (Z.of_nat n))
            (fun j _ =>
               cell <~ getitem2_h (length h0) (Z.of_nat i) (Z.of_nat j) ;;
               if String.eqb cell "" then ret tt
               else
                 cell <~ getitem2_h (length h0) (Z.of_nat i) (Z.of_nat j) ;;
                 cells_append (S (length h0) + length F) cell) tt)
       tt (layout h0 F [StrList []])).
Proof.
  refine (for_each_sim (fun res => layout h0 F [StrList res]) (fun _ => tt)
            (fun i res => for_each (range (Z.of_nat n)) (read_cell F i) res)
            _ _ (range rails) []).
  intros i res.
  exact (for_each_sim (fun res => layout h0 F [StrList res]) (fun _ => tt)
           (read_cell F i) _ (read_cell_sim F i) (range (Z.of_nat n)) res).
Qed.

Lemma read_zigzag_sim F (n : nat) (rails : Z) :
  sim (fun st => layout h0 F [StrList (fst st)]) snd
    (read_zigzag F n rails)
    (for_each_h (range (Z.of_nat n))
       (fun col c =>
          cell <~ getitem2_h (length h0) (rail c) (Z.of_nat col) ;;
          _ <~ cells_append (S (length h0) + length F) cell ;;
          ret (advance rails c))
       start (layout h0 F [StrList []])).
Proof.
  exact (for_each_sim (fun st => layout h0 F [StrList (fst st)]) snd
           (zigzag_body F rails) _ (zigzag_sim F rails)
           (range (Z.of_nat n)) ([], start)).
Qed.

(** A call of [encrypt] on the heap [h0] has the outcome of [encrypt] on
    values and leaves [h0] as it found it, followed by what it allocated. *)
Lemma encrypt_h_sim (text : string) (rails : Z) :
  exists garbage, encrypt_h text rails h0 = (encrypt text rails, h0 ++ garbage).
Proof.
  unfold encrypt_h, encrypt. cbv zeta. set (t := remove_spaces text).
  unfold bindM at 1. rewrite new_fence_layout. cbv beta iota.
  unfold bindM at 1.
  pose proof (populate_loop_sim t rails) as Hp.
  destruct (populate t rails) as [[F c]|e]; cbn [sim bind fst snd] in *.
  2:{ destruct Hp as [s'' ->]. apply raise_extends. }
  rewrite Hp. cbv beta iota.
  unfold bindM at 1. rewrite layout_alloc. cbv beta iota.
  unfold bindM at 1.
  pose proof (read_rows_sim F (len t) rails) as Hr.
  destruct (read_rows F (len t) rails) as [res|e]; cbn [sim bind] in *.
  2:{ destruct Hr as [s'' ->]. apply raise_extends. }
  rewrite Hr. cbv beta iota.
  unfold bindM. rewrite cells_of_layout. unfold ret.
  destruct (layout_extends h0 F [StrList res]) as [garbage ->]. eauto.
Qed.

Lemma decrypt_h_sim (text : string) (rails : Z) :
  exists garbage, decrypt_h text rails h0 = (decrypt text rails, h0 ++ garbage).
Proof.
  unfold decrypt_h, decrypt. cbv zeta. set (t := remove_spaces text).
  unfold bindM at 1. rewrite new_fence_layout. cbv beta iota.
  unfold bindM at 1.
  pose proof (mark_loop_sim (len t) rails) as Hm.
  destruct (mark (len t) rails) as [[F c]|e]; cbn [sim bind fst snd] in *.
  2:{ destruct Hm as [s'' ->]. apply raise_extends. }
  rewrite Hm. cbv beta iota.
  unfold bindM at 1.
  pose proof (fill_loop_sim t rails F) as Hf.
  destruct (fill t rails F) as [[F' index]|e]; cbn [sim bind fst snd] in *.
  2:{ destruct Hf as [s'' ->]. apply raise_extends. }
  rewrite Hf. cbv beta iota.
  unfold bindM at 1. rewrite layout_alloc. cbv beta iota.
  unfold bindM at 1.
  pose proof (read_zigzag_sim F' (len t) rails) as Hz.
  destruct (read_zigzag F' (len t) rails) as [[res c']|e]; cbn [sim bind fst snd] in *.
  2:{ destruct Hz as [s'' ->]. apply raise_extends. }
  rewrite Hz. cbv beta iota.
  unfold bindM. rewrite cells_of_layout. unfold ret.
  destruct (layout_extends h0 F' [StrList res]) as [garbage ->]. eauto.
Qed.

Lemma transform_h_sim (text : string) (rails : Z) (mode : bool) :
  exists garbage, transform_h text rails mode h0 = (transform text rails mode, h0 ++ garbage).
Proof. destruct mode; [apply encrypt_h_sim | apply decrypt_h_sim]. Qed.
End Calls.

Lemma run_calls_transform (calls : list (string * Z * bool)) (h : list obj) :
  run_calls calls h = (fun call => transform call.1.1 call.1.2 call.2) <$> calls.
Proof.
  revert h. induction calls as [|[[text rails] mode] calls IH]; intros h; [done|].
  cbn [run_calls fmap list_fmap].
  destruct (transform_h_sim h text rails mode) as [garbage ->].
  by rewrite IH.
Qed.

(** [encrypt] is its two passes: the write loop along the wave, then the
    read-off by row.  The character of column [j] comes out at the position
    given by the rank of its wave cell. *)
Lemma encrypt_by_passes (text : string) (rails : Z) :
  2 <= rails ->
  exists fence res,
    populate (remove_spaces text) rails =
      Ok (fence, walk rails (len (remove_spaces text))) /\
    read_rows fence (len (remove_spaces text)) rails = Ok res /\
    encrypt text rails = Ok (join res) /\
    forall j : nat, (j < len (remove_spaces text))%nat ->
      str_getitem (join res)
        (Z.of_nat (rank rails (len (remove_spaces text)) (row_of rails j) j)) =
      str_getitem (remove_spaces text) (Z.of_nat j).
Proof.
  intros H2. set (t := remove_spaces text).
  eexists _, _. split; [by apply populate_grid|].
  split; [unfold wave_grid; by apply read_rows_grid|].
  assert (He : encrypt text rails =
               Ok (join (flat_map
                 (fun i => filter (fun s => s <> ""%string)
                    ((fun j => if decide (i = row_of rails j)
                               then chr (nth j (chars t) blank) else ""%string)
                       <$> seq 0 (len t)))
                 (seq 0 (Z.to_nat rails))))).
  { unfold encrypt. cbv zeta. fold t. rewrite populate_grid by done.
    cbn [bind fst]. unfold wave_grid. by rewrite read_rows_grid. }
  split; [exact He|].
  intros j Hj. rewrite encrypt_sel in He by done. injection He as <-.
  fold t. rewrite len_chars in *.
  rewrite (str_getitem_nat _ _ (nth j (chars t) blank)).
  - symmetry. by apply str_getitem_nat, nth_chars.
  - rewrite chars_string. unfold sel.
    by rewrite list_lookup_fmap, order_rank.
Qed.

(** [decrypt] is its three passes: the marking loop along the wave, the fill
    by row, then the read-out along the wave.  Column [j] of the result is the
    ciphertext character whose index is the rank of the wave cell of [j]. *)
Lemma decrypt_by_passes (text : string) (rails : Z) :
  2 <= rails ->
  exists fence fence' index res,
    mark (len (remove_spaces text)) rails =
      Ok (fence, walk rails (len (remove_spaces text))) /\
    fill (remove_spaces text) rails fence = Ok (fence', index) /\
    read_zigzag fence' (len (remove_spaces text)) rails =
      Ok (res, walk rails (len (remove_spaces text))) /\
    decrypt text rails = Ok (join res) /\
    forall j : nat, (j < len (remove_spaces text))%nat ->
      (exists cell,
          res !! j = Some cell /\
          getitem2 fence' (tri rails (Z.of_nat j)) (Z.of_nat j) = Ok cell) /\
      str_getitem (join res) (Z.of_nat j) =
      str_getitem (remove_spaces text)
        (Z.of_nat (rank rails (len (remove_spaces text)) (row_of rails j) j)).
Proof.
  intros H2. set (t := remove_spaces text). rewrite !len_chars. fold t.
  set (g := fun i j : nat =>
              if decide (i = row_of rails j)
              then (if decide (i < Z.to_nat rails \/ i = Z.to_nat rails /\ j < 0)%nat
                    then chr (nth (rank rails (length (chars t)) i j) (chars t) blank)
                    else "*"%string)
              else newline).
  assert (Hfill : fill t rails
                    (wave_grid rails (length (chars t)) (fun _ _ => "*"%string) newline) =
                  Ok (grid (Z.to_nat rails) (length (chars t)) g,
                      Z.of_nat (rank rails (length (chars t)) (Z.to_nat rails) 0))).
  { by rewrite fill_grid. }
  assert (Hd : decrypt text rails =
               Ok (join ((fun j => g (row_of rails j) j) <$> seq 0 (length (chars t))))).
  { unfold decrypt. cbv zeta. fold t. rewrite len_chars.
    rewrite mark_grid by done. cbn [bind fst]. rewrite Hfill. cbn [bind fst].
    by rewrite read_zigzag_grid. }
  eexists _, _, _, _. split; [by apply mark_grid|].
  split; [exact Hfill|]. split; [by apply read_zigzag_grid|].
  split; [exact Hd|].
  intros j Hj. split.
  - exists (g (row_of rails j) j).
    split; [by apply (row_cell _ (fun j => g (row_of rails j) j))|].
    replace (tri rails (Z.of_nat j)) with (Z.of_nat (row_of rails j))
      by (by apply row_of_tri).
    apply getitem2_grid; [by apply row_of_lt|done].
  - rewrite decrypt_strip, decrypt_stripped in Hd
      by (done || apply remove_spaces_idemp).
    fold t in Hd. injection Hd as <-.
    pose proof (rank_lt rails (length (chars t)) H2 j Hj) as Hlt.
    rewrite (str_getitem_nat _ _
               (nth (rank rails (length (chars t)) (row_of rails j) j) (chars t) blank)).
    + symmetry. by apply str_getitem_nat, nth_chars.
    + by rewrite chars_string, list_lookup_fmap, lookup_seq_lt.
Qed.

(** * The claims *)

(** C1.  Round-trip law.  From two rails on, [decrypt(encrypt(t, r), r)]
    returns [t] for every text [t] that has no space.  With one rail, which
    the law covers too, the call raises [IndexError] as soon as [t] has two
    characters: the law fails on the code at [r = 1]. *)
Theorem round_trip_except_one_rail :
  (forall (t : string) (rails : Z),
      2 <= rails -> remove_spaces t = t -> round_trip t rails = Ok t) /\
  round_trip "AB" 1 = Raise IndexError.
Proof.
  split; [|by vm_compute].
  intros t rails H2 Ht. rewrite round_trip_two_rails by done. by rewrite Ht.
Qed.

Lemma round_trip_except_one_rail_witness :
  2 <= 3 /\ remove_spaces "HELLOWORLD" = "HELLOWORLD"%string /\
  round_trip "HELLOWORLD" 3 = Ok "HELLOWORLD"%string.
Proof.
  split; [lia|]. split; [reflexivity|].
  apply (proj1 round_trip_except_one_rail "HELLOWORLD"%string 3); [lia|reflexivity].
Defined.

(** C2.  Triangle-wave row assignment.  With two rails or more the cursor at
    column [k] is on row [tri rails k]; the first loop of [encrypt] leaves
    character [k] of the stripped text in cell [(tri rails k, k)] and the empty
    string in every other cell; the marking loop of [decrypt] leaves the marker
    in exactly the same cells; and the read-out loop of [decrypt] returns, for
    each column [k], the cell [(tri rails k, k)] of the fence it is given.
    [encrypt] returns the read-off by row of the fence its write loop leaves,
    so that the character of column [k] comes out at the rank of cell
    [(tri rails k, k)] in the row-by-row sweep; [decrypt] returns what its
    read-out loop collects from the fence its marking loop and fill pass
    leave, so that column [k] of its result is the ciphertext character at
    that same rank. *)
Theorem zigzag_rows_follow_triangle_wave (text : string) (rails : Z) (n : nat) :
  2 <= rails ->
  (forall k : nat, rail (walk rails k) = tri rails (Z.of_nat k)) /\
  (exists fence,
      populate (remove_spaces text) rails =
        Ok (fence, walk rails (len (remove_spaces text))) /\
      forall i j : nat,
        (i < Z.to_nat rails)%nat -> (j < len (remove_spaces text))%nat ->
        getitem2 fence (Z.of_nat i) (Z.of_nat j) =
        if decide (Z.of_nat i = tri rails (Z.of_nat j))
        then str_getitem (remove_spaces text) (Z.of_nat j)
        else Ok ""%string) /\
  (exists fence,
      mark n rails = Ok (fence, walk rails n) /\
      forall i j : nat,
        (i < Z.to_nat rails)%nat -> (j < n)%nat ->
        getitem2 fence (Z.of_nat i) (Z.of_nat j) =
        Ok (if decide (Z.of_nat i = tri rails (Z.of_nat j))
            then "*"%string else newline)) /\
  (forall fence : list (list string),
      length fence = Z.to_nat rails ->
      Forall (fun row => length row = n) fence ->
      exists res,
        read_zigzag fence n rails = Ok (res, walk rails n) /\
        length res = n /\
        forall j : nat, (j < n)%nat ->
          exists cell,
            res !! j = Some cell /\
            getitem2 fence (tri rails (Z.of_nat j)) (Z.of_nat j) = Ok cell) /\
  (exists fence res,
      populate (remove_spaces text) rails =
        Ok (fence, walk rails (len (remove_spaces text))) /\
      read_rows fence (len (remove_spaces text)) rails = Ok res /\
      encrypt text rails = Ok (join res) /\
      forall j : nat, (j < len (remove_spaces text))%nat ->
        str_getitem (join res)
          (Z.of_nat (rank rails (len (remove_spaces text)) (row_of rails j) j)) =
        str_getitem (remove_spaces text) (Z.of_nat j)) /\
  (exists fence fence' index res,
      mark (len (remove_spaces text)) rails =
        Ok (fence, walk rails (len (remove_spaces text))) /\
      fill (remove_spaces text) rails fence = Ok (fence', index) /\
      read_zigzag fence' (len (remove_spaces text)) rails =
        Ok (res, walk rails (len (remove_spaces text))) /\
      decrypt text rails = Ok (join res) /\
      forall j : nat, (j < len (remove_spaces text))%nat ->
        (exists cell,
            res !! j = Some cell /\
            getitem2 fence' (tri rails (Z.of_nat j)) (Z.of_nat j) = Ok cell) /\
        str_getitem (join res) (Z.of_nat j) =
        str_getitem (remove_spaces text)
          (Z.of_nat (rank rails (len (remove_spaces text)) (row_of rails j) j))).
Proof.
  intros H2. split; [|split; [|split; [|split; [|split]]]];
    [| | | |by apply encrypt_by_passes|by apply decrypt_by_passes].
  - intros k. by apply rail_walk.
  - eexists. split; [by apply populate_grid|].
    intros i j Hi Hj. rewrite wave_grid_cell by done.
    case_decide; [|done].
    rewrite len_chars in Hj. symmetry. by apply str_getitem_nat, nth_chars.
  - eexists. split; [by apply mark_grid|].
    intros i j Hi Hj. by apply wave_grid_cell.
  - intros fence Hr Hn. rewrite (grid_of_shape fence _ _ Hr Hn).
    set (g := fun i j => nth j (nth i fence []) ""%string).
    eexists. split; [by apply read_zigzag_grid|].
    split; [by rewrite length_fmap, length_seq|].
    intros j Hj. exists (g (row_of rails j) j).
    split; [by apply (row_cell n (fun j => g (row_of rails j) j))|].
    replace (tri rails (Z.of_nat j)) with (Z.of_nat (row_of rails j))
      by (by apply row_of_tri).
    apply getitem2_grid; [by apply row_of_lt|done].
Qed.

Lemma zigzag_rows_follow_triangle_wave_witness :
  2 <= 3 /\
  rail (walk 3 7) = tri 3 7 /\
  (exists fence res,
      populate "HELLOWORLD" 3 = Ok (fence, walk 3 10) /\
      read_rows fence 10 3 = Ok res /\
      encrypt "HELLO WORLD" 3 = Ok (join res)) /\
  (exists fence fence' index res,
      mark 10 3 = Ok (fence, walk 3 10) /\
      fill "HOLELWRDLO" 3 fence = Ok (fence', index) /\
      read_zigzag fence' 10 3 = Ok (res, walk 3 10) /\
      decrypt "HOL ELWRD LO" 3 = Ok (join res)).
Proof.
  split; [lia|].
  pose proof (zigzag_rows_follow_triangle_wave "HELLO WORLD" 3 10 ltac:(lia))
    as (Hwalk & _ & _ & _ & (fence & res & Hpop & Hread & Henc & _) & _).
  pose proof (zigzag_rows_follow_triangle_wave "HOL ELWRD LO" 3 10 ltac:(lia))
    as (_ & _ & _ & _ & _ & (fence1 & fence2 & index & res' &
                             Hmark & Hfill & Hzig & Hdec & _)).
  split; [exact (Hwalk 7%nat)|].
  split; [exists fence, res; auto|].
  exists fence1, fence2, index, res'. auto.
Defined.

(** C3.  One rail.  [encrypt(text, 1)] returns the stripped text only when
    that text has at most one character; on a longer text the cursor steps to
    row 1 of a one-row fence and the call raises [IndexError].  The identity
    the claim states fails at ["AB"]. *)
Theorem encrypt_one_rail_not_identity :
  (forall text : string,
      encrypt text 1 =
      if (len (remove_spaces text) <=? 1)%nat then Ok (remove_spaces text)
      else Raise IndexError) /\
  encrypt "AB" 1 = Raise IndexError.
Proof. split; [apply encrypt_one_rail | by vm_compute]. Qed.

(** C4, as the claim states it, fails: with zero rails and the text ["A"]
    [encrypt] does not raise an error that names the key. *)
Lemma encrypt_zero_rails_no_key_error :
  ~ (exists e, encrypt "A" 0 = Raise e /\ is_invalid_key_error e = true).
Proof.
  intros (e & He & Hkey). vm_compute in He. injection He as <-. discriminate.
Qed.

(** C4, amended.  [encrypt] checks no key.  With [rails <= 0] the fence has
    no row, and on a text that is not empty once stripped the first write of
    the first loop raises [IndexError]: nothing is returned. *)
Theorem encrypt_without_rails_index_error (text : string) (rails : Z) :
  rails <= 0 -> remove_spaces text <> ""%string ->
  encrypt text rails = Raise IndexError.
Proof.
  intros Hr Hne. rewrite encrypt_no_rail by done.
  destruct (remove_spaces text); [done|reflexivity].
Qed.

Lemma encrypt_without_rails_index_error_witness :
  -2 <= 0 /\ remove_spaces "H I" <> ""%string /\ encrypt "H I" (-2) = Raise IndexError.
Proof.
  split; [lia|]. split; [discriminate|].
  apply (encrypt_without_rails_index_error "H I" (-2)); [lia|discriminate].
Defined.

(** C5.  Permutation invariant.  From two rails on, [encrypt] returns, and
    what it returns has the characters of the stripped input, each as often,
    and its length.  For any rail count, what [encrypt] returns, when it
    returns, is such a rearrangement.  With one rail, which the claim covers
    too, there is no output on ["HELLO"]: the call raises [IndexError]. *)
Theorem encrypt_permutation_except_one_rail :
  (forall (text : string) (rails : Z),
      2 <= rails ->
      exists out,
        encrypt text rails = Ok out /\
        chars out ≡ₚ chars (remove_spaces text) /\
        len out = len (remove_spaces text)) /\
  (forall (text : string) (rails : Z) (out : string),
      encrypt text rails = Ok out -> chars out ≡ₚ chars (remove_spaces text)) /\
  encrypt "HELLO" 1 = Raise IndexError.
Proof.
  split; [|split; [apply encrypt_output_perm | by vm_compute]].
  intros text rails H2.
  destruct (encrypt_returns rails H2 text) as (out & Hout & _).
  exists out. split; [done|].
  pose proof (encrypt_output_perm text rails out Hout) as Hperm.
  split; [done|]. by rewrite !len_chars, Hperm.
Qed.

Lemma encrypt_permutation_except_one_rail_witness :
  2 <= 3 /\
  exists out,
    encrypt "HELLO WORLD" 3 = Ok out /\
    chars out ≡ₚ chars (remove_spaces "HELLO WORLD") /\
    len out = len (remove_spaces "HELLO WORLD").
Proof.
  split; [lia|].
  apply (proj1 encrypt_permutation_except_one_rail "HELLO WORLD"%string 3). lia.
Defined.

(** C6.  Example vector: three rails turn ["HELLOWORLD"] into ["HOLELWRDLO"],
    the rows [HOL], [ELWRD], [LO] of the zigzag read top to bottom, and
    [decrypt] turns it back. *)
Theorem hello_world_three_rails :
  encrypt "HELLOWORLD" 3 = Ok "HOLELWRDLO"%string /\
  decrypt "HOLELWRDLO" 3 = Ok "HELLOWORLD"%string.
Proof. split; by vm_compute. Qed.

(** C7.  Space stripping.  [encrypt] behaves on a text as on that text with
    its spaces removed, for every rail count, and nothing it returns has a
    space. *)
Theorem encrypt_strips_spaces (text : string) (rails : Z) :
  encrypt text rails = encrypt (remove_spaces text) rails /\
  forall out, encrypt text rails = Ok out -> " "%char ∉ chars out.
Proof.
  split; [apply encrypt_strip|].
  intros out Hout. rewrite (encrypt_output_perm text rails out Hout).
  apply remove_spaces_no_space.
Qed.

Lemma encrypt_strips_spaces_witness :
  encrypt "A B C" 2 = Ok "ACB"%string /\ " "%char ∉ chars "ACB".
Proof.
  split; [reflexivity|].
  apply (proj2 (encrypt_strips_spaces "A B C" 2) "ACB"%string). reflexivity.
Defined.

(** C8.  Dispatch: [transform] with the flag set is [encrypt], with the flag
    cleared it is [decrypt]. *)
Theorem transform_dispatch (text : string) (rails : Z) :
  transform text rails true = encrypt text rails /\
  transform text rails false = decrypt text rails.
Proof. split; reflexivity. Qed.

(** C9.  Determinism and purity, on the heap embedding, where the list
    objects of a call live on a heap that earlier calls have used and later
    calls will use.  Whatever heap a call of [transform] finds, its outcome, a
    returned string or a raised exception, is the one the value embedding
    computes from the arguments alone, and the heap it leaves is the heap it
    found with the objects it allocated added behind: it changes no object
    that was there.  So two calls with equal arguments have equal outcomes on
    any two heaps, and in a sequence of calls on one heap each outcome is that
    of its own arguments. *)
Theorem transform_pure :
  (forall (text : string) (rails : Z) (mode : bool) (h : list obj),
      exists garbage,
        transform_h text rails mode h = (transform text rails mode, h ++ garbage)) /\
  (forall (text : string) (rails : Z) (mode : bool) (h1 h2 : list obj),
      fst (transform_h text rails mode h1) = fst (transform_h text rails mode h2)) /\
  (forall (calls : list (string * Z * bool)) (h : list obj),
      run_calls calls h =
      (fun call => transform call.1.1 call.1.2 call.2) <$> calls).
Proof.
  split; [|split].
  - intros text rails mode h. apply transform_h_sim.
  - intros text rails mode h1 h2.
    destruct (transform_h_sim h1 text rails mode) as [g1 ->].
    by destruct (transform_h_sim h2 text rails mode) as [g2 ->].
  - apply run_calls_transform.
Qed.

(** C10.  In-bounds safety.  With two rails or more the cursor of a zigzag
    loop is on a row between [0] and [rails - 1] at the head of every
    iteration, each of the three zigzag loops ends on that cursor whatever the
    number of columns, so no fence access wraps around or leaves the fence,
    and both [encrypt] and [decrypt] return a string on every text. *)
Theorem fence_accesses_in_bounds (text : string) (rails : Z) :
  2 <= rails ->
  (forall k : nat, 0 <= rail (walk rails k) <= rails - 1) /\
  (exists fence,
      populate (remove_spaces text) rails =
      Ok (fence, walk rails (len (remove_spaces text)))) /\
  (forall n : nat, exists fence, mark n rails = Ok (fence, walk rails n)) /\
  (forall (n : nat) (g : nat -> nat -> string),
      exists res,
        read_zigzag (grid (Z.to_nat rails) n g) n rails = Ok (res, walk rails n)) /\
  (exists out, encrypt text rails = Ok out) /\
  (exists out, decrypt text rails = Ok out).
Proof.
  intros H2. repeat split.
  - by apply cursor_in_fence.
  - by apply cursor_in_fence.
  - eexists. by apply populate_grid.
  - intros n. eexists. by apply mark_grid.
  - intros n g. eexists. by apply read_zigzag_grid.
  - destruct (encrypt_returns rails H2 text) as (out & Hout & _). eauto.
  - by apply decrypt_returns.
Qed.

Lemma fence_accesses_in_bounds_witness :
  2 <= 4 /\ exists out, decrypt "HELLO WORLD" 4 = Ok out.
Proof.
  split; [lia|].
  apply (fence_accesses_in_bounds "HELLO WORLD" 4 ltac:(lia)).
Defined.

(** * Further properties of the code *)

(** ** [decrypt] with fewer than two rails *)

Section DecryptFewRails.
Local Open Scope nat_scope.

(** With no rail at all the first mark is out of range. *)
Lemma mark_no_rail (m : nat) (rails : Z) :
  (rails <= 0)%Z -> mark (S m) rails = Raise IndexError.
Proof.
  intros Hr. unfold mark. rewrite range_of_nat.
  change (seq 0 (S m)) with (0 :: seq 1 m).
  cbn [for_each]. unfold mark_body at 1.
  rewrite setitem2_out; [done|]. rewrite length_new_fence. simpl. lia.
Qed.

(** With one rail the marking cursor leaves the fence after column 0. *)
Lemma mark_one_rail (m : nat) : mark (S (S m)) 1 = Raise IndexError.
Proof.
  unfold mark. rewrite range_of_nat.
  change (seq 0 (S (S m))) with (0 :: 1 :: seq 2 m).
  cbn [for_each]. unfold mark_body at 1.
  rewrite new_fence_grid.
  rewrite (setitem2_grid _ _ _ 0 0) by (simpl; lia). cbn [bind].
  unfold mark_body at 1.
  rewrite setitem2_out; [done|]. by rewrite length_grid.
Qed.

Lemma decrypt_few_rails (text : string) (rails : Z) :
  (rails <= 1)%Z ->
  decrypt text rails =
  if len (remove_spaces text) <=? Z.to_nat rails then Ok (remove_spaces text)
  else Raise IndexError.
Proof.
  intros Hr. unfold decrypt. cbv zeta.
  destruct (decide (rails = 1%Z)) as [->|H1].
  - destruct (remove_spaces text) as [|a [|b s]]; [done|done|].
    change (len (String a (String b s))) with (S (S (len s))).
    by rewrite mark_one_rail.
  - replace (Z.to_nat rails) with 0 by lia.
    destruct (remove_spaces text) as [|a s].
    + unfold mark, fill, read_zigzag, range. simpl.
      by replace (Z.to_nat rails) with 0 by lia.
    + change (len (String a s)) with (S (len s)).
      by rewrite mark_no_rail by lia.
Qed.

Lemma encrypt_few_rails (text : string) (rails : Z) :
  (rails <= 1)%Z ->
  encrypt text rails =
  if len (remove_spaces text) <=? Z.to_nat rails then Ok (remove_spaces text)
  else Raise IndexError.
Proof.
  intros Hr. destruct (decide (rails = 1%Z)) as [->|H1].
  - apply encrypt_one_rail.
  - rewrite encrypt_no_rail by lia. replace (Z.to_nat rails) with 0 by lia.
    by destruct (remove_spaces text).
Qed.
End DecryptFewRails.

(** ** [decrypt] undoes the sweep, [encrypt] redoes it *)

Section Inverse.
Local Open Scope nat_scope.
Variable rails : Z.
Hypothesis two_rails : (2 <= rails)%Z.

Lemma NoDup_order (n : nat) : NoDup (order rails n).
Proof. rewrite order_perm by done. apply NoDup_seq. Qed.

Lemma order_lookup_lt (n k j : nat) : order rails n !! k = Some j -> j < n.
Proof.
  intros Hk. assert (Hin : j ∈ order rails n) by (by eapply list_elem_of_lookup_2).
  rewrite order_perm in Hin by done. apply elem_of_seq in Hin. lia.
Qed.

(** The rank of the [k]-th column of the sweep is [k]. *)
Lemma rank_order (n k j : nat) :
  order rails n !! k = Some j -> rank rails n (row_of rails j) j = k.
Proof.
  intros Hk. pose proof (order_lookup_lt n k j Hk) as Hj.
  eapply NoDup_lookup; [apply (NoDup_order n)| |exact Hk].
  by apply order_rank.
Qed.

(** The characters [decrypt] returns, before they are joined. *)
Lemma unsweep_lookup (cs : list ascii) (j : nat) :
  j < length cs ->
  ((fun j => nth (rank rails (length cs) (row_of rails j) j) cs blank)
     <$> seq 0 (length cs)) !! j =
  Some (nth (rank rails (length cs) (row_of rails j) j) cs blank).
Proof. intros Hj. by rewrite list_lookup_fmap, lookup_seq_lt. Qed.

Lemma unsweep_no_space (cs : list ascii) :
  " "%char ∉ cs ->
  " "%char ∉ (fun j => nth (rank rails (length cs) (row_of rails j) j) cs blank)
               <$> seq 0 (length cs).
Proof.
  intros Hcs [j [Heq Hj]]%list_elem_of_fmap. apply elem_of_seq in Hj.
  apply Hcs. rewrite Heq. eapply list_elem_of_lookup_2.
  apply nth_chars. apply rank_lt; [done|lia].
Qed.

Lemma sel_unsweep (cs : list ascii) :
  sel ((fun j => nth (rank rails (length cs) (row_of rails j) j) cs blank)
         <$> seq 0 (length cs))
      (order rails (length cs)) = cs.
Proof.
  unfold sel. apply list_eq; intros k. rewrite list_lookup_fmap.
  destruct (decide (k < length cs)) as [Hk|Hk].
  - destruct (lookup_lt_is_Some_2 (order rails (length cs)) k) as [j Hj];
      [by rewrite length_order|].
    rewrite Hj. simpl.
    pose proof (order_lookup_lt _ _ _ Hj) as Hlt.
    rewrite (nth_lookup_Some _ _ _ _ (unsweep_lookup cs j Hlt)).
    rewrite (rank_order _ _ _ Hj). by rewrite nth_chars.
  - rewrite !lookup_ge_None_2; [done|lia|]. rewrite length_order by done. lia.
Qed.

Lemma encrypt_decrypt_stripped (c : string) :
  remove_spaces c = c ->
  exists d, decrypt c rails = Ok d /\ remove_spaces d = d /\ encrypt d rails = Ok c.
Proof.
  intros Hc. eexists. split; [by apply decrypt_stripped|].
  set (cs := chars c).
  set (ds := (fun j => nth (rank rails (length cs) (row_of rails j) j) cs blank)
               <$> seq 0 (length cs)).
  assert (Hsp : remove_spaces (string_of_list_ascii ds) = string_of_list_ascii ds).
  { apply remove_spaces_id. rewrite chars_string. apply unsweep_no_space.
    unfold cs. rewrite <- Hc. apply remove_spaces_no_space. }
  split; [done|]. rewrite encrypt_sel by done. rewrite Hsp, chars_string.
  f_equal. rewrite <- (string_chars c). fold cs. f_equal.
  replace (length ds) with (length cs) by (unfold ds; by rewrite length_fmap, length_seq).
  apply sel_unsweep.
Qed.

Lemma decrypt_output_perm (text out : string) :
  decrypt text rails = Ok out -> chars out ≡ₚ chars (remove_spaces text).
Proof.
  rewrite decrypt_strip by done. intros Hout.
  destruct (encrypt_decrypt_stripped (remove_spaces text)) as (d & Hd & Hsp & He);
    [apply remove_spaces_idemp|].
  rewrite Hd in Hout. injection Hout as <-.
  apply encrypt_output_perm in He. by rewrite Hsp in He.
Qed.
End Inverse.

(** ** Special rail counts *)

Section ManyRails.
Local Open Scope nat_scope.
Variable rails : Z.
Hypothesis two_rails : (2 <= rails)%Z.

Lemma row_of_small (j : nat) : (Z.of_nat j < rails)%Z -> row_of rails j = j.
Proof.
  intros Hj. unfold row_of, tri. cbv zeta.
  rewrite Z.mod_small by lia.
  destruct (Z.ltb_spec (Z.of_nat j) rails); lia.
Qed.

Lemma rail_cols_many (n i : nat) :
  (Z.of_nat n <= rails)%Z ->
  rail_cols rails n i = if decide (i < n) then [i] else [].
Proof.
  intros Hn. induction n as [|n IH]; [done|].
  rewrite rail_cols_S, IH by lia. rewrite row_of_small by lia.
  repeat case_decide; subst; simpl; first [done | lia].
Qed.

Lemma rails_cols_many (n k : nat) :
  (Z.of_nat n <= rails)%Z -> rails_cols rails n k = seq 0 (k `min` n).
Proof.
  intros Hn. induction k as [|k IH]; [done|].
  rewrite rails_cols_S, IH, rail_cols_many by done.
  case_decide.
  - replace (k `min` n) with k by lia. replace (S k `min` n) with (S k) by lia.
    by rewrite seq_S.
  - replace (S k `min` n) with (k `min` n) by lia. by rewrite app_nil_r.
Qed.

Lemma order_many (n : nat) : (Z.of_nat n <= rails)%Z -> order rails n = seq 0 n.
Proof.
  intros Hn. unfold order. rewrite rails_cols_many by done. f_equal. lia.
Qed.

Lemma row_of_0 : row_of rails 0 = 0.
Proof. apply row_of_small. lia. Qed.

Lemma order_head (m : nat) : exists rest, order rails (S m) = 0 :: rest.
Proof.
  unfold order, rails_cols.
  rewrite (seq_split 0 (Z.to_nat rails)) by lia. simpl.
  unfold rail_cols at 1. simpl. rewrite filter_cons_True by apply row_of_0.
  eauto.
Qed.

Lemma rank_0 (n : nat) : rank rails n (row_of rails 0) 0 = 0.
Proof. by rewrite row_of_0. Qed.
End ManyRails.

Lemma row_of_two (j : nat) : row_of 2 j = (j `mod` 2)%nat.
Proof.
  unfold row_of, tri. cbv zeta. change (2 * 2 - 2) with 2.
  pose proof (Z.mod_pos_bound (Z.of_nat j) 2 ltac:(lia)).
  destruct (Z.ltb_spec (Z.of_nat j `mod` 2) 2); [|lia].
  change 2 with (Z.of_nat 2). by rewrite <- Nat2Z.inj_mod, Nat2Z.id.
Qed.

Lemma order_two (n : nat) :
  order 2 n =
  filter (fun j => j `mod` 2 = 0)%nat (seq 0 n) ++
  filter (fun j => j `mod` 2 = 1)%nat (seq 0 n).
Proof.
  unfold order, rails_cols, rail_cols. simpl. rewrite app_nil_r.
  f_equal; apply list_filter_iff; intros j; by rewrite row_of_two.
Qed.

Lemma chars_nil (s : string) : chars s = [] -> s = ""%string.
Proof. intros H. by rewrite <- (string_chars s), H. Qed.

Lemma decrypt_strip_any (text : string) (rails : Z) :
  decrypt text rails = decrypt (remove_spaces text) rails.
Proof. unfold decrypt. cbv zeta. by rewrite remove_spaces_idemp. Qed.

(** Whatever [decrypt] returns is a rearrangement of the stripped input. *)
Lemma decrypt_output_perm_any (text : string) (rails : Z) (out : string) :
  decrypt text rails = Ok out -> chars out ≡ₚ chars (remove_spaces text).
Proof.
  intros Hout. destruct (decide (2 <= rails)) as [H2|H2].
  - by eapply decrypt_output_perm.
  - rewrite decrypt_few_rails in Hout by lia.
    destruct (len (remove_spaces text) <=? Z.to_nat rails)%nat; [|done].
    by injection Hout as <-.
Qed.

(** The outcome of either method, for every rail count. *)
Lemma transform_outcome (text : string) (rails : Z) (mode : bool) :
  (2 <= rails \/ (len (remove_spaces text) <= Z.to_nat rails)%nat) /\
    (exists out, transform text rails mode = Ok out) \/
  (rails <= 1 /\ (Z.to_nat rails < len (remove_spaces text))%nat) /\
    transform text rails mode = Raise IndexError.
Proof.
  destruct (decide (2 <= rails)) as [H2|H2].
  - left. split; [by left|]. destruct mode; simpl.
    + destruct (encrypt_returns rails H2 text) as (out & Hout & _). eauto.
    + by apply decrypt_returns.
  - assert (Hout : transform text rails mode =
                   if (len (remove_spaces text) <=? Z.to_nat rails)%nat
                   then Ok (remove_spaces text) else Raise IndexError).
    { destruct mode; simpl; [apply encrypt_few_rails | apply decrypt_few_rails]; lia. }
    rewrite Hout.
    destruct (Nat.leb_spec (len (remove_spaces text)) (Z.to_nat rails)).
    + left. split; [by right|eauto].
    + right. split; [lia|done].
Qed.

Lemma transform_raises_index_error (text : string) (rails : Z) (mode : bool)
    (e : exn) :
  transform text rails mode = Raise e -> e = IndexError.
Proof.
  destruct (transform_outcome text rails mode) as [[_ [out Hout]]|[_ Hr]].
  - by rewrite Hout.
  - rewrite Hr. intros He. by injection He.
Qed.

(** * Properties beyond the claims *)

(** X1.  The other round trip.  With two rails or more and a ciphertext
    without spaces, [decrypt] returns a text that [encrypt] turns back into
    that ciphertext: the two methods are inverse to each other in both
    directions. *)
Theorem encrypt_after_decrypt (c : string) (rails : Z) :
  2 <= rails -> remove_spaces c = c ->
  exists d, decrypt c rails = Ok d /\ encrypt d rails = Ok c.
Proof.
  intros H2 Hc. destruct (encrypt_decrypt_stripped rails H2 c Hc) as (d & Hd & _ & He).
  eauto.
Qed.

Lemma encrypt_after_decrypt_witness :
  2 <= 3 /\ remove_spaces "HOLELWRDLO" = "HOLELWRDLO"%string /\
  exists d, decrypt "HOLELWRDLO" 3 = Ok d /\ encrypt d 3 = Ok "HOLELWRDLO"%string.
Proof.
  split; [lia|]. split; [reflexivity|].
  apply (encrypt_after_decrypt "HOLELWRDLO" 3); [lia|reflexivity].
Defined.

(** X2.  With two rails or more [decrypt] returns a rearrangement of the
    ciphertext without its spaces: the same characters, each as often, and
    the same length. *)
Theorem decrypt_permutation (text : string) (rails : Z) :
  2 <= rails ->
  exists out,
    decrypt text rails = Ok out /\
    chars out ≡ₚ chars (remove_spaces text) /\
    len out = len (remove_spaces text).
Proof.
  intros H2. destruct (decrypt_returns rails H2 text) as [out Hout].
  exists out. split; [done|].
  pose proof (decrypt_output_perm rails H2 text out Hout) as Hperm.
  split; [done|]. by rewrite !len_chars, Hperm.
Qed.

Lemma decrypt_permutation_witness :
  2 <= 3 /\
  exists out,
    decrypt "HOL ELWRD LO" 3 = Ok out /\
    chars out ≡ₚ chars (remove_spaces "HOL ELWRD LO") /\
    len out = len (remove_spaces "HOL ELWRD LO").
Proof. split; [lia|]. apply (decrypt_permutation "HOL ELWRD LO" 3). lia. Defined.

(** X3.  [decrypt] strips spaces too: for every rail count it behaves on a
    ciphertext as on that ciphertext without its spaces, and nothing it
    returns has a space. *)
Theorem decrypt_strips_spaces (text : string) (rails : Z) :
  decrypt text rails = decrypt (remove_spaces text) rails /\
  forall out, decrypt text rails = Ok out -> " "%char ∉ chars out.
Proof.
  split; [apply decrypt_strip_any|].
  intros out Hout. rewrite (decrypt_output_perm_any text rails out Hout).
  apply remove_spaces_no_space.
Qed.

Lemma decrypt_strips_spaces_witness :
  decrypt "AC B" 2 = Ok "ABC"%string /\ " "%char ∉ chars "ABC".
Proof.
  split; [reflexivity|].
  apply (proj2 (decrypt_strips_spaces "AC B" 2) "ABC"%string). reflexivity.
Defined.

(** X4.  Empty input.  On a text that is empty once its spaces are removed
    both methods return the empty string for every rail count, the rail
    counts below one included: the fence is never indexed. *)
Theorem empty_text_any_rails (text : string) (rails : Z) (mode : bool) :
  remove_spaces text = ""%string -> transform text rails mode = Ok ""%string.
Proof.
  intros He.
  destruct (transform_outcome text rails mode) as [[_ [out Hout]]|[[_ Hlt] _]].
  - rewrite Hout. f_equal. apply chars_nil, Permutation_nil_r.
    destruct mode; simpl in Hout.
    + apply encrypt_output_perm in Hout. by rewrite He in Hout.
    + apply decrypt_output_perm_any in Hout. by rewrite He in Hout.
  - rewrite He in Hlt. simpl in Hlt. lia.
Qed.

Lemma empty_text_any_rails_witness :
  remove_spaces "   " = ""%string /\ transform "   " (-3) false = Ok ""%string.
Proof.
  split; [reflexivity|]. apply (empty_text_any_rails "   " (-3) false). reflexivity.
Defined.

(** X5.  [decrypt] with fewer than two rails.  With one rail it returns a
    stripped ciphertext of at most one character unchanged, with no rail it
    returns the empty ciphertext unchanged, and on every longer ciphertext
    its marking loop raises [IndexError]. *)
Theorem decrypt_fewer_than_two_rails (text : string) (rails : Z) :
  rails <= 1 ->
  decrypt text rails =
  if (len (remove_spaces text) <=? Z.to_nat rails)%nat then Ok (remove_spaces text)
  else Raise IndexError.
Proof. apply decrypt_few_rails. Qed.

Lemma decrypt_fewer_than_two_rails_witness :
  1 <= 1 /\ decrypt "A B" 1 = Raise IndexError.
Proof. split; [lia|]. apply (decrypt_fewer_than_two_rails "A B" 1). lia. Defined.

(** X6.  When a call fails.  [transform], in either mode, raises exactly when
    the rail count is below two and smaller than the number of characters
    left after stripping; what it raises is always [IndexError], never a
    [ValueError]. *)
Theorem transform_fails_iff (text : string) (rails : Z) (mode : bool) :
  (transform text rails mode = Raise IndexError <->
   rails <= 1 /\ (Z.to_nat rails < len (remove_spaces text))%nat) /\
  (forall e, transform text rails mode = Raise e -> e = IndexError).
Proof.
  destruct (transform_outcome text rails mode) as [[Hc [out Hout]]|[Hc Hr]].
  - rewrite Hout. split; [|done]. split; [done|]. lia.
  - rewrite Hr. split; [done|]. intros e He. by injection He.
Qed.

Lemma transform_fails_iff_witness :
  transform "HELLO" 0 true = Raise IndexError.
Proof.
  apply (proj1 (transform_fails_iff "HELLO" 0 true)). simpl. lia.
Defined.

(** X7.  More rails than characters.  With two rails or more and at least as
    many rails as stripped characters the cursor never turns round, and both
    methods return the stripped text unchanged. *)
Theorem many_rails_identity (text : string) (rails : Z) :
  2 <= rails -> Z.of_nat (len (remove_spaces text)) <= rails ->
  encrypt text rails = Ok (remove_spaces text) /\
  decrypt text rails = Ok (remove_spaces text).
Proof.
  intros H2 Hn.
  assert (He : encrypt text rails = Ok (remove_spaces text)).
  { rewrite encrypt_sel by done. rewrite len_chars in Hn.
    by rewrite order_many, sel_seq, string_chars. }
  split; [done|].
  pose proof (round_trip_two_rails rails H2 text) as Hrt.
  unfold round_trip in Hrt. rewrite He in Hrt. simpl in Hrt.
  by rewrite decrypt_strip_any.
Qed.

Lemma many_rails_identity_witness :
  2 <= 5 /\ Z.of_nat (len (remove_spaces "A B C")) <= 5 /\
  encrypt "A B C" 5 = Ok (remove_spaces "A B C") /\
  decrypt "A B C" 5 = Ok (remove_spaces "A B C").
Proof.
  split; [lia|]. split; [simpl; lia|].
  apply (many_rails_identity "A B C" 5); simpl; lia.
Defined.

(** X8.  Two rails.  [encrypt(text, 2)] returns the characters at the even
    positions of the stripped text, in order, followed by those at the odd
    positions. *)
Theorem two_rails_evens_then_odds (text : string) :
  encrypt text 2 =
  Ok (string_of_list_ascii
        (sel (chars (remove_spaces text))
             (filter (fun j => j `mod` 2 = 0)%nat (seq 0 (len (remove_spaces text)))) ++
         sel (chars (remove_spaces text))
             (filter (fun j => j `mod` 2 = 1)%nat (seq 0 (len (remove_spaces text)))))).
Proof.
  rewrite encrypt_sel by lia. rewrite <- len_chars, order_two.
  unfold sel. by rewrite fmap_app.
Qed.

(** X9.  The first character stays first.  With two rails or more, a text
    that still has a character after stripping keeps its first character in
    front, through [encrypt] and through [decrypt]. *)
Theorem first_character_stays (text : string) (rails : Z) (a : ascii) (s : string) :
  2 <= rails -> remove_spaces text = String a s ->
  (exists s', encrypt text rails = Ok (String a s')) /\
  (exists s', decrypt text rails = Ok (String a s')).
Proof.
  intros H2 Ht. split.
  - rewrite encrypt_sel, Ht by done. simpl length.
    destruct (order_head rails H2 (length (chars s))) as [rest ->].
    simpl. eauto.
  - rewrite decrypt_strip_any, decrypt_stripped, Ht
      by (done || apply remove_spaces_idemp).
    simpl length. rewrite <- cons_seq, fmap_cons.
    rewrite rank_0 by done. simpl. eauto.
Qed.

Lemma first_character_stays_witness :
  2 <= 3 /\ remove_spaces " HELLO" = String "H" "ELLO" /\
  (exists s', encrypt " HELLO" 3 = Ok (String "H" s')) /\
  (exists s', decrypt " HELLO" 3 = Ok (String "H" s')).
Proof.
  split; [lia|]. split; [reflexivity|].
  apply (first_character_stays " HELLO" 3 "H" "ELLO"); [lia|reflexivity].
Defined.

(** X10.  The fill pass of [decrypt] uses the whole ciphertext.  With two
    rails or more the marking loop marks exactly [len(ciphertext)] cells, so
    the fill pass ends with [index == len(ciphertext)]: its guard
    [index < len(ciphertext)] never skips a marked cell.  Afterwards the wave
    cell of column [j] on row [i] holds the ciphertext character whose index
    is the number of wave cells the row-by-row sweep meets before it, and
    every other cell still holds the newline.  On a ciphertext without spaces
    this is the fence [decrypt] reads its result from. *)
Theorem fill_uses_whole_ciphertext (c : string) (rails : Z) :
  2 <= rails ->
  exists fence cur fence',
    mark (len c) rails = Ok (fence, cur) /\
    fill c rails fence = Ok (fence', Z.of_nat (len c)) /\
    (forall i j : nat,
      (i < Z.to_nat rails)%nat -> (j < len c)%nat ->
      getitem2 fence' (Z.of_nat i) (Z.of_nat j) =
      if decide (Z.of_nat i = tri rails (Z.of_nat j))
      then str_getitem c (Z.of_nat (rank rails (len c) i j))
      else Ok newline) /\
    (remove_spaces c = c ->
     exists res cur',
       read_zigzag fence' (len c) rails = Ok (res, cur') /\
       decrypt c rails = Ok (join res)).
Proof.
  intros H2.
  destruct (decrypt_by_passes c rails H2)
    as (f1 & f2 & index & res & Hm & Hf & Hz & Hd & _).
  rewrite len_chars in *.
  eexists _, _, _. split; [by apply mark_grid|].
  assert (Hidx : rank rails (length (chars c)) (Z.to_nat rails) 0 = length (chars c)).
  { unfold rank.
    change (rails_cols rails (length (chars c)) (Z.to_nat rails))
      with (order rails (length (chars c))).
    rewrite length_order by done. apply Nat.add_0_r. }
  rewrite fill_grid by done. unfold fill_state. rewrite Hidx. split; [done|].
  split.
  - intros i j Hi Hj. rewrite wave_grid_cell by done.
    case_decide as Hw; [|done].
    rewrite decide_True by lia. symmetry.
    apply str_getitem_nat, nth_chars.
    apply row_of_tri in Hw; [|done]. subst i. by apply rank_lt.
  - intros Hc. rewrite Hc in *.
    rewrite mark_grid in Hm by done. injection Hm as <-.
    rewrite fill_grid in Hf by done. unfold fill_state in Hf.
    injection Hf as <- _. eauto.
Qed.

Lemma fill_uses_whole_ciphertext_witness :
  2 <= 3 /\
  exists fence cur fence',
    mark (len "HOLELWRDLO") 3 = Ok (fence, cur) /\
    fill "HOLELWRDLO" 3 fence = Ok (fence', Z.of_nat (len "HOLELWRDLO")) /\
    (forall i j : nat,
      (i < Z.to_nat 3)%nat -> (j < len "HOLELWRDLO")%nat ->
      getitem2 fence' (Z.of_nat i) (Z.of_nat j) =
      if decide (Z.of_nat i = tri 3 (Z.of_nat j))
      then str_getitem "HOLELWRDLO" (Z.of_nat (rank 3 (len "HOLELWRDLO") i j))
      else Ok newline) /\
    (remove_spaces "HOLELWRDLO" = "HOLELWRDLO"%string ->
     exists res cur',
       read_zigzag fence' (len "HOLELWRDLO") 3 = Ok (res, cur') /\
       decrypt "HOLELWRDLO" 3 = Ok (join res)).
Proof. split; [lia|]. apply (fill_uses_whole_ciphertext "HOLELWRDLO" 3). lia. Defined.

(** X11.  No two texts share a ciphertext.  With two rails or more, texts
    that [encrypt] sends to the same outcome are equal once their spaces are
    removed. *)
Theorem encrypt_injective (t1 t2 : string) (rails : Z) :
  2 <= rails -> encrypt t1 rails = encrypt t2 rails ->
  remove_spaces t1 = remove_spaces t2.
Proof.
  intros H2 He.
  pose proof (round_trip_two_rails rails H2 t1) as H1.
  pose proof (round_trip_two_rails rails H2 t2) as Hb.
  unfold round_trip in H1, Hb. rewrite He, Hb in H1. by injection H1.
Qed.

Lemma encrypt_injective_witness :
  2 <= 2 /\ encrypt "A BC" 2 = encrypt "AB C" 2 /\
  remove_spaces "A BC" = remove_spaces "AB C".
Proof.
  split; [lia|]. split; [reflexivity|].
  apply (encrypt_injective "A BC" "AB C" 2); [lia|reflexivity].
Defined.

(** X12.  The caller's [except ValueError] never hides a cipher error.  In
    the rail-fence branch of [process_cipher], when [int(key)] returns
    [rails] the outcome is that of [transform(text, rails, encrypt)], its
    [IndexError] included; the error about a numeric key is raised only when
    [int(key)] itself raised a [ValueError], and then always. *)
Theorem process_cipher_railfence_outcomes (int : string -> result Z)
    (text key : string) (mode : bool) :
  (forall rails, int key = Ok rails ->
     process_cipher_railfence int text key mode = transform text rails mode) /\
  (forall msg, int key = Raise (ValueError msg) ->
     process_cipher_railfence int text key mode =
     Raise (ValueError "Rail Fence cipher requires a numeric key (number of rails)")) /\
  (forall msg, process_cipher_railfence int text key mode = Raise (ValueError msg) ->
     exists msg', int key = Raise (ValueError msg')).
Proof.
  unfold process_cipher_railfence. split; [|split].
  - intros rails ->. simpl.
    destruct (transform text rails mode) as [out|e] eqn:Ht; [done|].
    by rewrite (transform_raises_index_error text rails mode e Ht).
  - by intros msg ->.
  - intros msg. destruct (int key) as [rails|[|msg']]; simpl; [|done|eauto].
    destruct (transform text rails mode) as [out|e] eqn:Ht; [done|].
    by rewrite (transform_raises_index_error text rails mode e Ht).
Qed.

Lemma process_cipher_railfence_outcomes_witness :
  process_cipher_railfence (fun _ => Ok 0) "HELLO" "0" true =
  transform "HELLO" 0 true.
Proof.
  apply (proj1 (process_cipher_railfence_outcomes (fun _ => Ok 0) "HELLO" "0" true) 0).
  reflexivity.
Defined.
